(** * infact: the typed-variable environment (src/infact/environment.h)

    A shallow embedding of the value formatter [ValueString], of the generic
    binding table [VarMapImpl] and of its two concrete tables [VarMap<T>]
    and [VarMap<vector<T>>], together with the properties of the
    specification that concern them.

    Conventions of the embedding.
    - An [unordered_map<string, T>] is a [gmap string T] and the list of
      its keys in the order of insertion; the order in which it is iterated
      is not fixed by the container and is a parameter ([UnorderedMap]).
    - A member function that mutates [this] or the token stream is a
      computation in the monad [M], whose state is the receiver and the
      stream; [Error] ends the computation and leaves the state as it was
      when it was called. A [const] member function is a plain function of
      the receiver.
    - [int] counters and [size_t] positions are numbers without bound; the
      code does no arithmetic on them besides counting vector elements.
    - [double] tables are left out (no floating point here).
    - [Set], [Defined] and [Print] are words of the proof language: the
      members of these names are [Set_], [Defined_] and [Print_]. *)

From Stdlib Require Import Eqdep_dec DecimalString.
From stdpp Require Import gmap strings list fin_maps pretty.

(** ** Characters that a string literal cannot hold *)

Definition dquote : string := String (Ascii.ascii_of_nat 34) EmptyString.
Definition newline : string := String (Ascii.ascii_of_nat 10) EmptyString.

(** ** Outcomes of a call *)

(** [Failed msg] is a call of [Error(msg)], which does not return.
    [NullDeref] is the dereference of a null pointer, undefined in C++.
    [OutOfFuel] is the loop budget of the embedding running out; the code
    has no such thing (see [read_elements]). *)
Inductive outcome (A : Type) : Type :=
| Ok (a : A)
| Failed (msg : string)
| NullDeref
| OutOfFuel.
Arguments Ok {A} a.
Arguments Failed {A} msg.
Arguments NullDeref {A}.
Arguments OutOfFuel {A}.

(** ** The token stream *)

(** Modelled from the spec: stream-tokenizer.h is not among the sources.
    The spec (section 6) gives the stream [Peek] and [PeekPrev], which look
    without consuming, [Next], which consumes and returns, and position
    queries used in error messages. Here a stream is the list of its tokens,
    each with the position where it starts, and the index of the next one.
    Past the last token [Peek] is the empty string and [Next] is an error. *)
Module StreamTokenizer.

(** Modelled from the spec: a token, its text and where it starts. *)
Record Token : Type := { tok : string; start : nat }.

(** Modelled from the spec: the tokens of the stream, the index of the
    next one, and the position where the stream ends. *)
Record t : Type :=
  { token_ : list Token; next_token_idx_ : nat; eof_pos_ : nat }.

(** Modelled from the spec: whether there is a next token. *)
Definition HasNext (st : t) : bool :=
  bool_decide (next_token_idx_ st < length (token_ st))%nat.

(** Modelled from the spec: [Peek()], the next token, not consumed. *)
Definition Peek (st : t) : string :=
  match token_ st !! next_token_idx_ st with
  | Some k => tok k
  | None => ""
  end.

(** Modelled from the spec: [PeekTokenStart()], where the next token
    starts. *)
Definition PeekTokenStart (st : t) : nat :=
  match token_ st !! next_token_idx_ st with
  | Some k => start k
  | None => eof_pos_ st
  end.

(** Modelled from the spec: the token consumed last, if any. *)
Definition prev_token (st : t) : option Token :=
  match next_token_idx_ st with
  | O => None
  | S i => token_ st !! i
  end.

(** Modelled from the spec: [PeekPrev()] and [PeekPrevTokenStart()], the
    token consumed last and where it starts. *)
Definition PeekPrev (st : t) : string :=
  match prev_token st with Some k => tok k | None => "" end.

Definition PeekPrevTokenStart (st : t) : nat :=
  match prev_token st with Some k => start k | None => 0 end.

(** Modelled from the spec: the stream with its next token consumed. *)
Definition advance (st : t) : t :=
  {| token_ := token_ st;
     next_token_idx_ := S (next_token_idx_ st);
     eof_pos_ := eof_pos_ st |}.

(** Modelled from the spec: [Next()], the next token, consumed. *)
Definition Next (st : t) : outcome string * t :=
  match token_ st !! next_token_idx_ st with
  | Some k => (Ok (tok k), advance st)
  | None => (Failed "StreamTokenizer::Next: no next token", st)
  end.

(** Tokens not yet consumed. *)
Definition remaining (st : t) : nat :=
  length (token_ st) - next_token_idx_ st.

(** [st'] is [st] read further: the only thing [Next] can do to it. *)
Definition forward (st st' : t) : Prop :=
  token_ st' = token_ st ∧ eof_pos_ st' = eof_pos_ st
  ∧ (next_token_idx_ st ≤ next_token_idx_ st')%nat.

(** A stream over the given token texts, one position apart. *)
Definition of_tokens (l : list string) : t :=
  {| token_ := imap (λ i s, {| tok := s; start := i |}) l;
     next_token_idx_ := 0;
     eof_pos_ := length l |}.

End StreamTokenizer.

Abbreviation StreamTokenizer := StreamTokenizer.t.

(** ** The value formatter *)

(** [ValueString<T>]: one instance per specialization of the template. *)
Class ValueString (T : Type) : Type := ToString : T → string.
#[global] Hint Mode ValueString ! : typeclass_instances.

(** The primary template, [oss << value]: the text the stream inserter of
    [T] writes. For [int] this is the decimal numeral. *)
Definition ValueString_primary {T : Type} `{Pretty T} : ValueString T :=
  λ value, pretty value.

(** [ValueString<string>] *)
Definition ValueString_string : ValueString string :=
  λ value, dquote +:+ value +:+ dquote.

(** [ValueString<bool>] *)
Definition ValueString_bool : ValueString bool :=
  λ value, if value then "true" else "false".

(** A [shared_ptr<T>] as far as this file uses it: the address it holds,
    0 for the null pointer. Copying one copies the address. *)
Record shared_ptr : Type := { get : N }.

(** [ValueString<shared_ptr<T>>]. The name [typeid] gives to the type and
    the way an address is written are the compiler's choice, not the code's:
    the name is an argument, the address is written in decimal. *)
Definition ValueString_shared_ptr (typeid_name : string)
  : ValueString shared_ptr :=
  λ value, "<" +:+ typeid_name +:+ ":" +:+ pretty (get value) +:+ ">".

(** [ValueString<vector<T>>]: the first element, then every other element
    after a comma and a space, between braces. *)
Definition ValueString_vector {T : Type} (value_string : ValueString T)
  : ValueString (list T) :=
  λ value,
    let oss := "{" in
    let '(oss, it) :=
      match value with
      | [] => (oss, [])
      | x :: it => (oss +:+ value_string x, it)
      end in
    let oss := foldl (λ oss x, oss +:+ ", " +:+ value_string x) oss it in
    oss +:+ "}".

(** ** Iteration over an unordered_map *)

(** An [unordered_map<string, T>] is the finite map it holds together with
    the keys in the order in which they were inserted. In which order an
    iteration from [begin()] to [end()] visits the entries is up to the
    library, and may depend on both. [iteration] is that order. *)
Class UnorderedMap : Type :=
  iteration : ∀ {T : Type}, list string → gmap string T → list (string * T).

(** What every library does: an iteration visits every entry once, and
    nothing else. *)
Definition visits_every_entry_once (U : UnorderedMap) : Prop :=
  ∀ (T : Type) (inserted : list string) (m : gmap string T),
    iteration inserted m ≡ₚ map_to_list m.

(** The entries of a map in the order of a list of keys. *)
Definition in_order_of {T : Type} (keys : list string) (m : gmap string T)
  : list (string * T) :=
  omap (λ key, pair key <$> m !! key) keys.

(** One such order: the entry inserted last comes first, as in a table
    that links every new node at the head of its list of nodes. *)
Definition newest_first_iteration {T : Type} (inserted : list string)
    (m : gmap string T) : list (string * T) :=
  if decide (NoDup inserted ∧ list_to_set inserted = dom m)
  then in_order_of (reverse inserted) m
  else map_to_list m.

Definition newest_first : UnorderedMap := @newest_first_iteration.

(** Another one: the order of insertion, as in a table that links every
    new node at the end of its list of nodes. *)
Definition oldest_first_iteration {T : Type} (inserted : list string)
    (m : gmap string T) : list (string * T) :=
  if decide (NoDup inserted ∧ list_to_set inserted = dom m)
  then in_order_of inserted m
  else map_to_list m.

Definition oldest_first : UnorderedMap := @oldest_first_iteration.

(** ** VarMapImpl<T, Derived>: what both kinds of table share *)

Section VarMapImpl.
Context {T : Type}.

(** The members of [VarMapBase] and [vars_]. The unordered_map [vars_] is
    two fields: the map, and in [vars_inserted_] its keys in the order of
    their insertion. The pointer [env_] to the owning environment is not a
    field: a member function that follows it takes the environment as an
    argument. *)
Record VarMapImpl : Type :=
  { name_ : string;
    is_primitive_ : bool;
    vars_ : gmap string T;
    vars_inserted_ : list string }.

Definition IsPrimitive (this : VarMapImpl) : bool := is_primitive_ this.

Definition Name (this : VarMapImpl) : string := name_ this.

(** [Get(varname, value)]: the result and what [*value] holds after the
    call, given what it held before. *)
Definition Get (this : VarMapImpl) (varname : string) (value : T)
  : bool * T :=
  match vars_ this !! varname with
  | None => (false, value)
  | Some v => (true, v)
  end.

Definition Defined_ (this : VarMapImpl) (varname : string) : bool :=
  bool_decide (vars_ this !! varname ≠ None).

(** [Set(varname, value)]: [vars_[varname] = value], which inserts the
    key when the map does not have it. *)
Definition Set_ (this : VarMapImpl) (varname : string) (value : T)
  : VarMapImpl :=
  {| name_ := name_ this;
     is_primitive_ := is_primitive_ this;
     vars_ := <[varname := value]> (vars_ this);
     vars_inserted_ :=
       if decide (is_Some (vars_ this !! varname))
       then vars_inserted_ this
       else vars_inserted_ this ++ [varname] |}.

(** What [Print] writes for one entry. *)
Definition print_entry {VS : ValueString T} (this : VarMapImpl)
    (entry : string * T) : string :=
  Name this +:+ " " +:+ entry.1 +:+ " = " +:+ ToString entry.2
    +:+ ";" +:+ newline.

(** [Print(os)]: the output stream after the call, as the text written to
    it so far. *)
Definition Print_ {U : UnorderedMap} {VS : ValueString T}
    (this : VarMapImpl) (os : string) : string :=
  foldl (λ os entry, os +:+ print_entry this entry) os
        (iteration (vars_inserted_ this) (vars_ this)).

(** The keys in [vars_inserted_] are the keys of [vars_], each once: what
    [Set] keeps true from the empty table on. *)
Definition inserted_consistent (this : VarMapImpl) : Prop :=
  NoDup (vars_inserted_ this)
  ∧ list_to_set (vars_inserted_ this) = dom (vars_ this).

(** [SetMembers] *)
Definition SetMembers (this : VarMapImpl) (name : string)
    (is_primitive : bool) : VarMapImpl :=
  {| name_ := name;
     is_primitive_ := is_primitive;
     vars_ := vars_ this;
     vars_inserted_ := vars_inserted_ this |}.

End VarMapImpl.
Arguments VarMapImpl T : clear implicits.

(** ** The types the templates are instantiated at *)

(** The C++ type [T] of a table, which is what [dynamic_cast] tells apart:
    [bool], [int], [string], [shared_ptr<cls>] for a Factory-constructible
    class, and [vector<e>]. *)
Inductive ty : Type :=
| TBool
| TInt
| TString
| TObject (cls : string)
| TVector (e : ty).

Fixpoint val (t : ty) : Type :=
  match t with
  | TBool => bool
  | TInt => Z
  | TString => string
  | TObject _ => shared_ptr
  | TVector e => list (val e)
  end.

(** [T()], value initialization. *)
Definition value_init (t : ty) : val t :=
  match t return val t with
  | TBool => false
  | TInt => 0%Z
  | TString => ""
  | TObject _ => {| get := 0%N |}
  | TVector _ => []
  end.

(** The specialization of [ValueString] the compiler picks for [T]. *)
Fixpoint ValueString_of (t : ty) : ValueString (val t) :=
  match t return ValueString (val t) with
  | TBool => ValueString_bool
  | TInt => ValueString_primary
  | TString => ValueString_string
  | TObject cls => ValueString_shared_ptr cls
  | TVector e => ValueString_vector (ValueString_of e)
  end.
#[global] Existing Instance ValueString_of.

(** Whether two types are the same, with the proof when they are. *)
Fixpoint ty_eq (t t' : ty) : option (t = t') :=
  match t, t' return option (t = t') with
  | TBool, TBool => Some eq_refl
  | TInt, TInt => Some eq_refl
  | TString, TString => Some eq_refl
  | TObject c, TObject c' =>
      match String.string_dec c c' with
      | left H => Some (f_equal TObject H)
      | right _ => None
      end
  | TVector e, TVector e' =>
      match ty_eq e e' with
      | Some H => Some (f_equal TVector H)
      | None => None
      end
  | _, _ => None
  end.

(** ** VarMap<T> and VarMap<vector<T>> *)

(** [element_typename_] is a member of the vector tables only. *)
Definition element_typename_field (t : ty) : Type :=
  match t with TVector _ => string | _ => unit end.

Record VarMap (t : ty) : Type :=
  { impl : VarMapImpl (val t);
    element_typename_ : element_typename_field t }.
Arguments impl {t} _.
Arguments element_typename_ {t} _.

(** [Set] on a concrete table. *)
Definition VarMap_Set {t : ty} (this : VarMap t) (varname : string)
    (value : val t) : VarMap t :=
  {| impl := Set_ (impl this) varname value;
     element_typename_ := element_typename_ this |}.

(** A table behind the interface [VarMapBase]: its type and itself. *)
Definition VarMapBase : Type := { t : ty & VarMap t }.

(** [dynamic_cast<VarMap<T> *>(p)] for a pointer [p] to a [VarMapBase], the
    null pointer being [None]: null when [p] is null or points to a table of
    another type. *)
Definition dynamic_cast (t : ty) (p : option VarMapBase)
  : option (VarMap t) :=
  match p with
  | None => None
  | Some (existT t' m) =>
      match ty_eq t' t with
      | Some H => Some (eq_rect t' VarMap m t H)
      | None => None
      end
  end.

(** [Copy(env)]: the copy constructor of the table, then [SetMembers] with
    the same name and flag. The copy holds the same entries. The cast of
    [this] to its own type cannot fail here. *)
Definition VarMap_Copy {t : ty} (this : VarMap t) : VarMap t :=
  {| impl := SetMembers (impl this) (name_ (impl this))
                        (is_primitive_ (impl this));
     element_typename_ := element_typename_ this |}.

Definition VarMapBase_Copy (p : VarMapBase) : VarMapBase :=
  let 'existT t m := p in existT t (VarMap_Copy m).

(** ** The environment *)

(** Modelled from the spec: [Environment] is an interface in
    environment.h and the class that implements it is not among the
    sources. From sections 3 and 4.2 of the spec: a table for every
    registered type name, an index from the name of a variable to the name
    of its type, and the names of the concrete classes of the object
    factory with the abstract type each one implements. *)
Record Environment : Type :=
  { var_map_ : gmap string VarMapBase;
    types_ : gmap string string;
    concrete_to_factory_type_ : gmap string string }.

(** Modelled from the spec: [Defined(varname)], section 4.2: the index
    contains the name. *)
Definition Environment_Defined (env : Environment) (varname : string)
  : bool :=
  bool_decide (types_ env !! varname ≠ None).

(** Modelled from the spec: [GetType(varname)], section 4.2: the type name
    bound to the name, an error if there is none. *)
Definition Environment_GetType (env : Environment) (varname : string)
  : outcome string :=
  match types_ env !! varname with
  | Some type => Ok type
  | None => Failed ("Environment::GetType: no variable " +:+ varname)
  end.

(** Modelled from the spec: the name under which the table of a type is
    kept, section 4.2: the abstract type's when [type] is a concrete class
    of the object factory, [type] otherwise. *)
Definition lookup_type_of (env : Environment) (type : string) : string :=
  match concrete_to_factory_type_ env !! type with
  | Some base => base
  | None => type
  end.

(** Modelled from the spec: [GetVarMapForType(type)], section 4.2: the
    table of the abstract type when [type] is a concrete class, the table
    of [type] otherwise, null if there is none. *)
Definition Environment_GetVarMapForType (env : Environment) (type : string)
  : option VarMapBase :=
  var_map_ env !! lookup_type_of env type.

(** Modelled from the spec: [GetVarMap(varname)], section 4.2: the table
    of the type the index gives for the name, an error if the name is not
    defined. *)
Definition Environment_GetVarMap (env : Environment) (varname : string)
  : outcome (option VarMapBase) :=
  match Environment_GetType env varname with
  | Ok type => Ok (Environment_GetVarMapForType env type)
  | Failed msg => Failed msg
  | NullDeref => NullDeref
  | OutOfFuel => OutOfFuel
  end.

(** Modelled from the spec: [Copy()], section 4.2: every table copied
    with its [Copy], the index and the class names duplicated. *)
Definition Environment_Copy (env : Environment) : Environment :=
  {| var_map_ := VarMapBase_Copy <$> var_map_ env;
     types_ := types_ env;
     concrete_to_factory_type_ := concrete_to_factory_type_ env |}.

(** ** Member functions that change state *)

(** A computation from a state [Σ]: an outcome and the state it leaves.
    Whatever was changed before an error stays changed. *)
Section Method.
Context {Σ : Type}.

Definition M (A : Type) : Type := Σ → outcome A * Σ.

Definition ret {A : Type} (a : A) : M A := λ s, (Ok a, s).

Definition bind {A B : Type} (c : M A) (k : A → M B) : M B :=
  λ s, match c s with
       | (Ok a, s') => k a s'
       | (Failed msg, s') => (Failed msg, s')
       | (NullDeref, s') => (NullDeref, s')
       | (OutOfFuel, s') => (OutOfFuel, s')
       end.

(** Modelled from the spec: error.h is not among the sources. Section 6 of
    the spec: [Error(msg)] reports the message and aborts the parse; it
    does not return to its caller. *)
Definition Error {A : Type} (msg : string) : M A := λ s, (Failed msg, s).

(** An outcome computed without touching the state. *)
Definition lift {A : Type} (r : outcome A) : M A := λ s, (r, s).

End Method.
Arguments M Σ A : clear implicits.

Notation "'let*' x ':=' c 'in' k" := (bind c (λ x, k))
  (at level 10, x pattern, c at level 100, k at level 200, only parsing).

(** The state of a call of a member function of a table: the table and the
    token stream [st] it was given. *)
Record Frame (t : ty) : Type :=
  { this : VarMap t; st : StreamTokenizer }.
Arguments this {t} _.
Arguments st {t} _.

Section Frame.
Context {t : ty}.

Definition st_Peek : M (Frame t) string :=
  λ fr, (Ok (StreamTokenizer.Peek (st fr)), fr).

Definition st_PeekPrev : M (Frame t) string :=
  λ fr, (Ok (StreamTokenizer.PeekPrev (st fr)), fr).

Definition st_PeekTokenStart : M (Frame t) nat :=
  λ fr, (Ok (StreamTokenizer.PeekTokenStart (st fr)), fr).

Definition st_PeekPrevTokenStart : M (Frame t) nat :=
  λ fr, (Ok (StreamTokenizer.PeekPrevTokenStart (st fr)), fr).

Definition st_Next : M (Frame t) string :=
  λ fr, let '(r, st') := StreamTokenizer.Next (st fr) in
        (r, {| this := this fr; st := st' |}).

(** [this->Set(varname, value)] *)
Definition this_Set (varname : string) (value : val t)
  : M (Frame t) unit :=
  λ fr, (Ok tt, {| this := VarMap_Set (this fr) varname value;
                   st := st fr |}).

Definition this_Name : M (Frame t) string :=
  λ fr, (Ok (Name (impl (this fr))), fr).

(** [ReadAndSetFromExistingVariable(varname, st)], with [env] what
    [env()] points to. The table [GetVarMap] returns is read before
    [this] is written, so it does not matter here whether it is [this]
    itself. The messages under [VAR_MAP_DEBUG >= 1] are compiled out. *)
Definition ReadAndSetFromExistingVariable (env : Environment)
    (varname : string) : M (Frame t) bool :=
  let* peeked := st_Peek in
  if Environment_Defined env peeked then
    let* peeked := st_Peek in
    let* var_map := lift (Environment_GetVarMap env peeked) in
    match dynamic_cast t var_map with
    | Some typed_var_map =>
        let* rhs_variable := st_Next in
        let value := value_init t in
        let '(success, value) :=
          Get (impl typed_var_map) rhs_variable value in
        let* _ := (if success then this_Set varname value else ret tt) in
        ret true
    | None => ret true
    end
  else ret false.

End Frame.

(** The stream builds the decimal numeral of a number it is given. *)
Definition element_name (varname : string) (element_idx : nat) : string :=
  "____" +:+ varname +:+ "_" +:+ pretty element_idx +:+ "____".

Definition expected_open_brace_message (pos : nat) (prev : string)
  : string :=
  "VarMap<vector<T>>: " +:+ "error: expected '{' at stream position "
    +:+ pretty pos +:+ " but found " +:+ dquote +:+ prev +:+ dquote.

Definition trouble_initializing_message (name : string) (element_idx : nat)
    (varname : string) : string :=
  "VarMap<" +:+ name +:+ ">::ReadAndSet: trouble "
    +:+ "initializing element " +:+ pretty element_idx
    +:+ " of variable " +:+ varname.

Definition expected_separator_message (pos : nat) (found : string)
  : string :=
  "Initializer<vector<T>>: "
    +:+ "error: expected ',' or '}' at stream position "
    +:+ pretty pos +:+ " but found " +:+ dquote +:+ found +:+ dquote.

Section ReadAndSet.

(** [Initializer<T>::Init(st, env)], from stream-init.h, which is not
    among the sources: it reads one value of type [T] from the stream, or
    fails. *)
Variable Init :
  ∀ t : ty, Environment → StreamTokenizer
            → outcome (val t) * StreamTokenizer.

(** [Environment::ReadAndSet(varname, st, type)], a pure virtual function
    in environment.h: the outcome, the environment and the stream after
    the call. *)
Variable Environment_ReadAndSet :
  Environment → string → StreamTokenizer → string
  → outcome unit * (Environment * StreamTokenizer).

Definition initializer_Init {t : ty} (env : Environment)
  : M (Frame t) (val t) :=
  λ fr, let '(r, st') := Init t env (st fr) in
        (r, {| this := this fr; st := st' |}).

(** [VarMap<T>::ReadAndSet(varname, st)] *)
Definition VarMap_ReadAndSet {t : ty} (env : Environment)
    (varname : string) : M (Frame t) unit :=
  let* handled := ReadAndSetFromExistingVariable env varname in
  if negb handled then
    let* value := initializer_Init env in
    this_Set varname value
  else ret tt.

Section Vector.
Context {e : ty}.

Definition this_element_typename : M (Frame (TVector e)) string :=
  λ fr, (Ok (element_typename_ (this fr) : string), fr).

(** [env_ptr->ReadAndSet(element_name, st, element_typename_)] *)
Definition env_ptr_ReadAndSet (env_ptr : Environment)
    (element_name type : string) : M (Frame (TVector e)) Environment :=
  λ fr, let '(r, (env_ptr', st')) :=
          Environment_ReadAndSet env_ptr element_name (st fr) type in
        (match r with
         | Ok _ => Ok env_ptr'
         | Failed msg => Failed msg
         | NullDeref => NullDeref
         | OutOfFuel => OutOfFuel
         end, {| this := this fr; st := st' |}).

(** The loop [while (st.Peek() != "}")] of the vector table, from the
    values read so far and the index of the next element. [fuel] bounds
    the number of iterations. *)
Fixpoint read_elements (fuel : nat) (env : Environment)
    (varname : string) (value : list (val e)) (element_idx : nat)
  : M (Frame (TVector e)) (list (val e)) :=
  match fuel with
  | O => lift OutOfFuel
  | S fuel =>
      let* peeked := st_Peek in
      if bool_decide (peeked ≠ "}") then
        let env_ptr := Environment_Copy env in
        let element_name := element_name varname element_idx in
        let element_idx := S element_idx in
        let* element_typename := this_element_typename in
        let* env_ptr :=
          env_ptr_ReadAndSet env_ptr element_name element_typename in
        let element_var_map :=
          Environment_GetVarMapForType env_ptr element_typename in
        match dynamic_cast e element_var_map with
        | None => lift NullDeref
        | Some typed_element_var_map =>
            let '(found, element) :=
              Get (impl typed_element_var_map) element_name
                  (value_init e) in
            let* value :=
              (if found then ret (value ++ [element])%list
               else
                 let* name := this_Name in
                 Error (trouble_initializing_message
                          name (element_idx - 1) varname)) in
            let* peeked := st_Peek in
            let* _ :=
              (if bool_decide (peeked ≠ ",")
                  && bool_decide (peeked ≠ "}")
               then
                 let* pos := st_PeekTokenStart in
                 let* found := st_Peek in
                 Error (expected_separator_message pos found)
               else ret tt) in
            let* peeked := st_Peek in
            let* _ :=
              (if bool_decide (peeked = ",")
               then let* _ := st_Next in ret tt
               else ret tt) in
            read_elements fuel env varname value element_idx
        end
      else ret value
  end.

Definition st_remaining : M (Frame (TVector e)) nat :=
  λ fr, (Ok (StreamTokenizer.remaining (st fr)), fr).

(** [VarMap<vector<T>>::ReadAndSet(varname, st)]. The loop is given one
    iteration more than there are tokens left after the brace. *)
Definition VarMapVector_ReadAndSet (env : Environment)
    (varname : string) : M (Frame (TVector e)) unit :=
  let* handled := ReadAndSetFromExistingVariable env varname in
  if negb handled then
    let* peeked := st_Peek in
    let* _ :=
      (if bool_decide (peeked = "{")
       then let* _ := st_Next in ret tt
       else
         let* pos := st_PeekPrevTokenStart in
         let* prev := st_PeekPrev in
         Error (expected_open_brace_message pos prev)) in
    let* fuel := st_remaining in
    let* value := read_elements (S fuel) env varname [] 0 in
    let* _ := st_Next in
    this_Set (t := TVector e) varname value
  else ret tt.

End Vector.

End ReadAndSet.

(** ** The environment's ReadAndSet, and an initializer for literals *)

(** The virtual call [var_map->ReadAndSet(varname, st)]: the member of the
    specialization for vectors when [T] is a vector, of the primary
    template otherwise. *)
Definition VarMapBase_ReadAndSet
    (Init : ∀ t : ty, Environment → StreamTokenizer
                      → outcome (val t) * StreamTokenizer)
    (Environment_ReadAndSet :
       Environment → string → StreamTokenizer → string
       → outcome unit * (Environment * StreamTokenizer))
    (t : ty) : Environment → string → M (Frame t) unit :=
  match t return Environment → string → M (Frame t) unit with
  | TVector e => VarMapVector_ReadAndSet Environment_ReadAndSet (e := e)
  | TBool => VarMap_ReadAndSet Init (t := TBool)
  | TInt => VarMap_ReadAndSet Init (t := TInt)
  | TString => VarMap_ReadAndSet Init (t := TString)
  | TObject cls => VarMap_ReadAndSet Init (t := TObject cls)
  end.

(** Modelled from the spec: [Environment::ReadAndSet] is implemented outside
    environment.h. Section 4.2 of the spec: resolve the table of the
    declared type, fail if there is none, delegate to the table's
    [ReadAndSet]; section 8: the variable is then defined, with that type.
    [depth] bounds how deep the tables may call back into the environment
    (a vector table does, once for each element). *)
Fixpoint EnvironmentImpl_ReadAndSet
    (Init : ∀ t : ty, Environment → StreamTokenizer
                      → outcome (val t) * StreamTokenizer)
    (depth : nat) (env : Environment) (varname : string)
    (tokens : StreamTokenizer) (type : string)
  : outcome unit * (Environment * StreamTokenizer) :=
  match depth with
  | O => (OutOfFuel, (env, tokens))
  | S depth =>
      let lookup_type := lookup_type_of env type in
      match Environment_GetVarMapForType env type with
      | None =>
          (Failed ("Environment::ReadAndSet: unknown type " +:+ type),
           (env, tokens))
      | Some (existT t var_map) =>
          let '(r, fr) :=
            VarMapBase_ReadAndSet
              Init (EnvironmentImpl_ReadAndSet Init depth) t env varname
              {| this := var_map; st := tokens |} in
          (r,
           ({| var_map_ := <[lookup_type := existT t (this fr)]>
                             (var_map_ env);
               types_ := match r with
                         | Ok _ => <[varname := lookup_type]> (types_ env)
                         | _ => types_ env
                         end;
               concrete_to_factory_type_ := concrete_to_factory_type_ env |},
            st fr))
      end
  end.

(** Modelled from the spec: stream-init.h is not among the sources. An
    initializer for the literals of the primitive types, one token each:
    [true] or [false], a decimal numeral, any token as a string. It fails
    on anything else, and for the other types. *)
Definition literal_Init (t : ty) (env : Environment) (st : StreamTokenizer)
  : outcome (val t) * StreamTokenizer :=
  match StreamTokenizer.Next st with
  | (Ok s, st') =>
      (match t return outcome (val t) with
       | TBool =>
           if bool_decide (s = "true") then Ok true
           else if bool_decide (s = "false") then Ok false
           else Failed ("Initializer<bool>: not a boolean: " +:+ s)
       | TInt =>
           match NilZero.int_of_string s with
           | Some d => Ok (Z.of_int d)
           | None => Failed ("Initializer<int>: not a numeral: " +:+ s)
           end
       | TString => Ok s
       | TObject _ => Failed "Initializer: no factory here"
       | TVector _ => Failed "Initializer: not a primitive type"
       end, st')
  | (Failed msg, st') => (Failed msg, st')
  | (NullDeref, st') => (NullDeref, st')
  | (OutOfFuel, st') => (OutOfFuel, st')
  end.

(** An empty table, as the constructors of [VarMap] make it. *)
Definition VarMap_new (t : ty) (name : string)
    (element_typename : element_typename_field t) : VarMap t :=
  {| impl := {| name_ := name; is_primitive_ := true; vars_ := ∅;
                vars_inserted_ := [] |};
     element_typename_ := element_typename |}.

(** An environment with a table for each primitive type and for the vectors
    of each, and no variable. *)
Definition primitive_env : Environment :=
  {| var_map_ :=
       list_to_map
         [ ("bool", existT TBool (VarMap_new TBool "bool" tt));
           ("int", existT TInt (VarMap_new TInt "int" tt));
           ("string", existT TString (VarMap_new TString "string" tt));
           ("bool[]", existT (TVector TBool)
                        (VarMap_new (TVector TBool) "bool[]" "bool"));
           ("int[]", existT (TVector TInt)
                       (VarMap_new (TVector TInt) "int[]" "int"));
           ("string[]", existT (TVector TString)
                          (VarMap_new (TVector TString) "string[]"
                                      "string")) ];
     types_ := ∅;
     concrete_to_factory_type_ := ∅ |}.

(** The table of a type in an environment, when it has that type. *)
Definition table_of (t : ty) (env : Environment) (type : string)
  : option (VarMap t) :=
  dynamic_cast t (Environment_GetVarMapForType env type).

(** The text of a list of pieces, one after the other. *)
Definition text_of {A : Type} (piece : A → string) (l : list A) : string :=
  foldr (λ x rest, piece x +:+ rest) "" l.

(** ** What the vector table reads *)

Section Element_lists.
Import StreamTokenizer.

Variable Environment_ReadAndSet :
  Environment → string → StreamTokenizer → string
  → outcome unit * (Environment * StreamTokenizer).
Context {e : ty}.
Variables (env : Environment) (varname : string).
Variable this0 : VarMap (TVector e).

(** One turn of the loop, up to the test for a separator: the next token is
    not the closing brace, the environment's [ReadAndSet] on a copy of the
    environment returns, reading from [st0] up to [st1], and the table of
    the element type in the copy then holds [element] under the name made
    up for the element. *)
Inductive element_read (element_idx : nat) (st0 : StreamTokenizer)
    (element : val e) (st1 : StreamTokenizer) : Prop :=
| element_read_intro (env_ptr : Environment)
    (typed_element_var_map : VarMap e) :
    Peek st0 ≠ "}" →
    Environment_ReadAndSet (Environment_Copy env)
      (element_name varname element_idx) st0
      (element_typename_ this0 : string)
    = (Ok tt, (env_ptr, st1)) →
    forward st0 st1 →
    table_of e env_ptr (element_typename_ this0 : string)
    = Some typed_element_var_map →
    vars_ (impl typed_element_var_map)
      !! element_name varname element_idx = Some element →
    element_read element_idx st0 element st1.

(** Turns of the loop that each read an element and then a comma: from
    index [i] and stream [st0], the elements read, and the index and the
    stream at the next test of the loop. *)
Inductive elements_before :
  nat → StreamTokenizer → list (val e) → nat → StreamTokenizer → Prop :=
| elements_before_nil i st0 : elements_before i st0 [] i st0
| elements_before_comma i st0 element st1 elements j st2 :
    element_read i st0 element st1 →
    Peek st1 = "," →
    elements_before (S i) (advance st1) elements j st2 →
    elements_before i st0 (element :: elements) j st2.

(** What is between the braces of [{ e0, e1, ..., en }]: elements with a
    comma after each but, possibly, the last, up to the closing brace,
    which is the next token of [st1]. *)
Inductive element_list (st0 : StreamTokenizer) (elements : list (val e))
    (st1 : StreamTokenizer) : Prop :=
| element_list_closed j :
    elements_before 0 st0 elements j st1 →
    Peek st1 = "}" →
    element_list st0 elements st1
| element_list_last before j st' element :
    elements_before 0 st0 before j st' →
    element_read j st' element st1 →
    Peek st1 = "}" →
    elements = before ++ [element] →
    element_list st0 elements st1.

End Element_lists.

(** ** Tables, streams and environments to run the code on *)

Section Example_definitions.
Import StreamTokenizer.

(** The environment's [ReadAndSet] when a vector table calls it for an
    element: deep enough for the tables of the primitive types. *)
Definition read_element_of_vector :=
  EnvironmentImpl_ReadAndSet literal_Init 1.

(** The environment's [ReadAndSet] when the interpreter calls it. *)
Definition read_statement := EnvironmentImpl_ReadAndSet literal_Init 2.

Definition int_table : VarMap TInt := VarMap_new TInt "int" tt.

Definition int_vector_table : VarMap (TVector TInt) :=
  VarMap_new (TVector TInt) "int[]" "int".

(** A stream at its [n]-th token. *)
Definition at_token (n : nat) (st0 : StreamTokenizer) : StreamTokenizer :=
  {| token_ := token_ st0; next_token_idx_ := n; eof_pos_ := eof_pos_ st0 |}.

(** [{ 1, 2, 3 };] and [{ };] *)
Definition three_ints : StreamTokenizer :=
  of_tokens ["{"; "1"; ","; "2"; ","; "3"; "}"; ";"].
Definition no_ints : StreamTokenizer := of_tokens ["{"; "}"; ";"].

(** [1;], [{ 1 2 };] *)
Definition no_brace : StreamTokenizer := of_tokens ["1"; ";"].
Definition no_comma : StreamTokenizer := of_tokens ["{"; "1"; "2"; "}"; ";"].

(** The environment after [string s = hello;]. *)
Definition env_s : Environment :=
  (read_statement primitive_env "s" (of_tokens ["hello"; ";"])
                  "string").2.1.

(** [{ s };] *)
Definition one_name : StreamTokenizer := of_tokens ["{"; "s"; "}"; ";"].

(** A table of vectors of [int] that was given [string] as the name of its
    element type. *)
Definition misdeclared_table : VarMap (TVector TInt) :=
  VarMap_new (TVector TInt) "int[]" "string".

(** The environment after [int x = 1;]. *)
Definition env_x : Environment :=
  (read_statement primitive_env "x" (of_tokens ["1"; ";"]) "int").2.1.

(** The environment after [string s = hello;] and then [int y = s;]. *)
Definition env_y : Environment :=
  (read_statement env_s "y" (of_tokens ["s"; ";"]) "int").2.1.

End Example_definitions.

(** ** Texts without a given character *)

Definition comma_char : Ascii.ascii := Ascii.ascii_of_nat 44.
Definition close_brace_char : Ascii.ascii := Ascii.ascii_of_nat 125.
Definition underscore_char : Ascii.ascii := Ascii.ascii_of_nat 95.

(** The characters that end the text of an element inside the text of a
    vector: the comma and the closing brace. *)
Definition is_separator (c : Ascii.ascii) : bool :=
  bool_decide (c = comma_char) || bool_decide (c = close_brace_char).

Definition is_underscore (c : Ascii.ascii) : bool :=
  bool_decide (c = underscore_char).

(** A text none of whose characters is [bad]. *)
Fixpoint free_of (bad : Ascii.ascii → bool) (s : string) : bool :=
  match s with
  | EmptyString => true
  | String c s => negb (bad c) && free_of bad s
  end.

(** A text that holds no separator. *)
Definition plain (s : string) : bool := free_of is_separator s.

(** A text that starts with a separator. *)
Definition starts_with_separator (s : string) : bool :=
  match s with
  | EmptyString => false
  | String c _ => is_separator c
  end.


(** The environment after [int[] xs = { 1, 2, 3 };]. *)
Definition env_xs : Environment :=
  (read_statement primitive_env "xs" three_ints "int[]").2.1.

(** [x;], [xs;] and [s;] *)
Definition name_x : StreamTokenizer := StreamTokenizer.of_tokens ["x"; ";"].
Definition name_xs : StreamTokenizer :=
  StreamTokenizer.of_tokens ["xs"; ";"].
Definition name_s : StreamTokenizer := StreamTokenizer.of_tokens ["s"; ";"].
(** * Properties *)

(** ** Strings *)

Lemma append_assoc (a b c : string) : (a +:+ b) +:+ c = a +:+ b +:+ c.
Proof.
  induction a as [|ch a IH]; [done |].
  change (String ch ((a +:+ b) +:+ c) = String ch (a +:+ b +:+ c)).
  by rewrite IH.
Qed.

Lemma append_nil_r (a : string) : a +:+ "" = a.
Proof.
  induction a as [|ch a IH]; [done |].
  change (String ch (a +:+ "") = String ch a).
  by rewrite IH.
Qed.

Lemma foldl_append {A : Type} (piece : A → string) (l : list A)
    (acc : string) :
  foldl (λ acc x, acc +:+ piece x) acc l = acc +:+ text_of piece l.
Proof.
  revert acc. induction l as [|x l IH]; intros acc; simpl.
  - by rewrite append_nil_r.
  - by rewrite IH, append_assoc.
Qed.

Lemma concat_cons_text {A : Type} (sep : string) (f : A → string) (x : A)
    (l : list A) :
  String.concat sep (f x :: map f l)
  = f x +:+ text_of (λ y, sep +:+ f y) l.
Proof.
  revert x. induction l as [|y l IH]; intros x.
  - simpl. by rewrite append_nil_r.
  - change (String.concat sep (f x :: map f (y :: l)))
      with (f x +:+ sep +:+ String.concat sep (f y :: map f l)).
    rewrite IH. unfold text_of at 2. cbn [foldr].
    by rewrite append_assoc.
Qed.

(** ** The value formatter *)

Lemma ValueString_vector_concat {T : Type} (value_string : ValueString T)
    (value : list T) :
  ValueString_vector value_string value
  = "{" +:+ String.concat ", " (map value_string value) +:+ "}".
Proof.
  unfold ValueString_vector. destruct value as [|x it].
  - reflexivity.
  - rewrite (foldl_append (λ y, ", " +:+ value_string y)).
    cbn [map]. rewrite concat_cons_text.
    by rewrite !append_assoc.
Qed.

(** C7. The formatter writes a string between double quotes, a boolean as
    [true] or [false], and a vector as its elements, each written by the
    formatter of the element type, with a comma and a space between two of
    them and braces around; the empty vector is [{}]. *)
Theorem ToString_forms :
  (∀ s : string,
      ToString (T := val TString) s = dquote +:+ s +:+ dquote)
  ∧ ToString (T := val TBool) true = "true"
  ∧ ToString (T := val TBool) false = "false"
  ∧ (∀ (e : ty) (value : list (val e)),
        ToString (T := val (TVector e)) value
        = "{" +:+ String.concat ", " (map (ToString (T := val e)) value)
              +:+ "}")
  ∧ (∀ e : ty, ToString (T := val (TVector e)) [] = "{}").
Proof.
  repeat split; try reflexivity.
  intros e value. apply (ValueString_vector_concat (ValueString_of e)).
Qed.

(** ** Iteration orders *)

Lemma elem_of_in_order_of {T : Type} (keys : list string)
    (m : gmap string T) (key : string) (value : T) :
  (key, value) ∈ in_order_of keys m ↔ key ∈ keys ∧ m !! key = Some value.
Proof.
  unfold in_order_of. rewrite list_elem_of_omap. split.
  - intros (key' & Hin & Heq).
    destruct (m !! key') as [v|] eqn:Hv; [| done].
    injection Heq as -> ->. done.
  - intros [Hin Hv]. exists key. by rewrite Hv.
Qed.

Lemma NoDup_in_order_of {T : Type} (keys : list string)
    (m : gmap string T) :
  NoDup keys → NoDup (in_order_of keys m).
Proof.
  induction 1 as [|key keys Hnotin _ IH]; [constructor |].
  unfold in_order_of. cbn [omap list_omap]. fold (in_order_of keys m).
  destruct (m !! key) as [v|]; simpl; [| done].
  constructor; [| done]. rewrite elem_of_in_order_of. by intros [? _].
Qed.

Lemma in_order_of_entries {T : Type} (keys : list string)
    (m : gmap string T) :
  NoDup keys → list_to_set keys = dom m →
  in_order_of keys m ≡ₚ map_to_list m.
Proof.
  intros Hnodup Hdom. apply NoDup_Permutation.
  - by apply NoDup_in_order_of.
  - apply NoDup_map_to_list.
  - intros [key value]. rewrite elem_of_in_order_of, elem_of_map_to_list.
    split; [by intros [_ ?] |]. intros Hv. split; [| done].
    apply (elem_of_list_to_set (C := gset string)). rewrite Hdom.
    apply elem_of_dom. eauto.
Qed.

Lemma newest_first_visits_every_entry_once :
  visits_every_entry_once newest_first.
Proof.
  intros T inserted m. unfold iteration, newest_first,
    newest_first_iteration.
  case_decide as H; [| done]. destruct H as [Hnodup Hdom].
  unfold in_order_of. rewrite reverse_Permutation.
  by apply in_order_of_entries.
Qed.

Lemma oldest_first_visits_every_entry_once :
  visits_every_entry_once oldest_first.
Proof.
  intros T inserted m. unfold iteration, oldest_first,
    oldest_first_iteration.
  case_decide as H; [| done]. destruct H as [Hnodup Hdom].
  by apply in_order_of_entries.
Qed.

(** ** The generic table *)

Section VarMapImpl_properties.
Context {T : Type}.
Implicit Types (this : VarMapImpl T) (varname : string) (value : T).

Lemma Get_Some this varname value v :
  vars_ this !! varname = Some v → Get this varname value = (true, v).
Proof. unfold Get. by intros ->. Qed.

Lemma Get_None this varname value :
  vars_ this !! varname = None → Get this varname value = (false, value).
Proof. unfold Get. by intros ->. Qed.

Lemma Get_Set_eq this varname value v :
  Get (Set_ this varname v) varname value = (true, v).
Proof. apply Get_Some. simpl. apply lookup_insert_eq. Qed.

Lemma Get_Set_ne this varname varname' value v :
  varname ≠ varname' →
  Get (Set_ this varname v) varname' value = Get this varname' value.
Proof. intros Hne. unfold Get. simpl. by rewrite lookup_insert_ne. Qed.

Lemma Defined_true this varname :
  Defined_ this varname = true ↔ is_Some (vars_ this !! varname).
Proof.
  unfold Defined_. rewrite bool_decide_eq_true.
  by rewrite not_eq_None_Some.
Qed.

(** C9. [Get] returns true exactly when the variable is bound in the
    table, and then [*value] holds the stored value; otherwise it returns
    false and [*value] holds what it held before. [Get] is a [const]
    member: the table is an argument of the function and not a result of
    it, and stays as it is. *)
Theorem Get_bound_iff this varname value :
  (Get this varname value).1 = Defined_ this varname
  ∧ (Get this varname value).2
    = match vars_ this !! varname with Some v => v | None => value end
  ∧ ((Get this varname value).1 = true
     ↔ ∃ v, vars_ this !! varname = Some v)
  ∧ ((Get this varname value).1 = false
     ↔ (vars_ this !! varname = None
        ∧ (Get this varname value).2 = value)).
Proof.
  unfold Get, Defined_.
  destruct (vars_ this !! varname) as [v|] eqn:Hv; simpl.
  - repeat split; try done; eauto.
    intros [? _]; done.
  - repeat split; try done.
    intros [v Hv']; done.
Qed.

Section Print.
Context `{U : UnorderedMap} `{VS : ValueString T}.

Lemma Print_text this os :
  Print_ this os
  = os +:+ text_of (print_entry this)
                   (iteration (vars_inserted_ this) (vars_ this)).
Proof. unfold Print_. apply foldl_append. Qed.

(** C6, as the code has it. [Print] writes, after what the stream
    already holds, one line [<Name()> <varname> = <value>;] and a
    newline for every bound variable, each variable once, in the order
    in which the unordered_map is iterated, whatever that is. It is a
    function of the table and of the output stream only. *)
Theorem Print_one_line_per_entry this os :
  visits_every_entry_once U →
  let entries := iteration (vars_inserted_ this) (vars_ this) in
  Print_ this os
  = os +:+ text_of (λ entry, Name this +:+ " " +:+ entry.1 +:+ " = "
                               +:+ ToString entry.2 +:+ ";" +:+ newline)
                   entries
  ∧ NoDup entries.*1
  ∧ (∀ varname value,
        (varname, value) ∈ entries ↔ vars_ this !! varname = Some value).
Proof.
  intros Hvisits entries.
  pose proof (Hvisits T (vars_inserted_ this) (vars_ this)) as Hperm.
  split; [apply Print_text |]. split.
  - unfold entries. rewrite Hperm. apply NoDup_fst_map_to_list.
  - intros varname value. unfold entries. rewrite Hperm.
    apply elem_of_map_to_list.
Qed.

End Print.

Lemma Set_inserted_consistent this varname value :
  inserted_consistent this → inserted_consistent (Set_ this varname value).
Proof.
  intros [Hnodup Hdom]. unfold inserted_consistent, Set_.
  cbn [vars_ vars_inserted_].
  rewrite dom_insert_L, <- Hdom. case_decide as Hbound.
  - split; [done |]. apply elem_of_dom in Hbound.
    rewrite <- Hdom in Hbound.
    apply set_eq. intros key. rewrite elem_of_union, elem_of_singleton.
    split; [by right | by intros [-> |]].
  - assert (varname ∉ vars_inserted_ this) as Hnew.
    { intros Hin. apply Hbound, elem_of_dom. rewrite <- Hdom.
      by apply elem_of_list_to_set. }
    split.
    + apply NoDup_app. split; [done |]. split; [| apply NoDup_singleton].
      intros key Hin ->%list_elem_of_singleton. done.
    + rewrite list_to_set_app_L, (comm_L (∪)). simpl.
      by rewrite (right_id_L ∅ (∪)).
Qed.

(** Where the unordered_map iterates in the order of insertion, [Print]
    writes the lines in that order. *)
Lemma Print_oldest_first `{VS : ValueString T} this os :
  inserted_consistent this →
  Print_ (U := oldest_first) this os
  = os +:+ text_of (print_entry this)
                   (in_order_of (vars_inserted_ this) (vars_ this)).
Proof.
  intros Hconsistent. rewrite Print_text.
  unfold iteration, oldest_first, oldest_first_iteration.
  by rewrite decide_True.
Qed.

End VarMapImpl_properties.

(** A table of [int] where [x] was bound first and [y] second. *)
Lemma Print_one_line_per_entry_witness :
  let this := VarMap_Set (VarMap_Set (VarMap_new TInt "int" tt) "x" 1%Z)
                         "y" 2%Z in
  let entries := [("y", 2%Z); ("x", 1%Z)] in
  Print_ (U := newest_first) (VS := ValueString_of TInt) (impl this) ""
  = "" +:+ text_of (λ entry, "int" +:+ " " +:+ entry.1 +:+ " = "
                               +:+ ToString (T := val TInt) entry.2
                               +:+ ";" +:+ newline)
                   entries
  ∧ NoDup entries.*1
  ∧ (∀ varname value,
        (varname, value) ∈ entries
        ↔ vars_ (impl this) !! varname = Some value).
Proof.
  intros this.
  apply (Print_one_line_per_entry (U := newest_first)
           (VS := ValueString_of TInt) (impl this) "").
  apply newest_first_visits_every_entry_once.
Defined.

(** C6, as the spec has it, fails. In a table of [int] where [x] was
    bound first and [y] second, an unordered_map that iterates from the
    newest entry to the oldest, visiting every entry once, makes [Print]
    write the line of [y] first. *)
Lemma Print_not_in_insertion_order :
  let this :=
    Set_ (Set_ {| name_ := "int"; is_primitive_ := true;
                  vars_ := (∅ : gmap string Z); vars_inserted_ := [] |}
               "x" 1%Z) "y" 2%Z in
  visits_every_entry_once newest_first
  ∧ vars_inserted_ this = ["x"; "y"]
  ∧ Print_ (U := newest_first) (VS := ValueString_of TInt) this ""
    = "int y = 2;" +:+ newline +:+ "int x = 1;" +:+ newline
  ∧ Print_ (U := newest_first) (VS := ValueString_of TInt) this ""
    ≠ print_entry (VS := ValueString_of TInt) this ("x", 1%Z)
        +:+ print_entry (VS := ValueString_of TInt) this ("y", 2%Z).
Proof.
  split; [apply newest_first_visits_every_entry_once |].
  repeat split; by vm_compute.
Qed.

(** ** Casts *)

Lemma ty_eq_refl (t : ty) : ty_eq t t = Some eq_refl.
Proof.
  induction t as [| | |cls|e IH]; simpl; try reflexivity.
  - destruct (String.string_dec cls cls) as [H|H]; [| done].
    by rewrite (UIP_dec String.string_dec H eq_refl).
  - by rewrite IH.
Qed.

Lemma dynamic_cast_same (t : ty) (m : VarMap t) :
  dynamic_cast t (Some (existT t m)) = Some m.
Proof. unfold dynamic_cast. by rewrite ty_eq_refl. Qed.

Lemma dynamic_cast_other (t t' : ty) (m : VarMap t') :
  t' ≠ t → dynamic_cast t (Some (existT t' m)) = None.
Proof.
  intros Hne. unfold dynamic_cast.
  destruct (ty_eq t' t) as [H|]; [by destruct Hne | done].
Qed.

Lemma dynamic_cast_Some (t : ty) (p : option VarMapBase) (m : VarMap t) :
  dynamic_cast t p = Some m → p = Some (existT t m).
Proof.
  unfold dynamic_cast. destruct p as [[t' m']|]; [| done].
  destruct (ty_eq t' t) as [H|]; [| done].
  destruct H. simpl. by intros [= ->].
Qed.

(** ** The token stream *)

Section StreamTokenizer_properties.
Import StreamTokenizer.
Implicit Types st : StreamTokenizer.

Lemma HasNext_true st :
  HasNext st = true ↔ is_Some (token_ st !! next_token_idx_ st).
Proof.
  unfold HasNext. rewrite bool_decide_eq_true. symmetry.
  apply lookup_lt_is_Some.
Qed.

Lemma Next_HasNext st :
  HasNext st = true → Next st = (Ok (Peek st), advance st).
Proof.
  rewrite HasNext_true. intros [k Hk]. unfold Next, Peek. by rewrite Hk.
Qed.

Lemma Peek_nonempty_HasNext st : Peek st ≠ "" → HasNext st = true.
Proof.
  rewrite HasNext_true. unfold Peek.
  destruct (token_ st !! next_token_idx_ st); [eauto | done].
Qed.

Lemma forward_refl st : forward st st.
Proof. by repeat split. Qed.

Lemma forward_advance st : forward st (advance st).
Proof. repeat split; simpl; lia. Qed.

Lemma forward_trans st1 st2 st3 :
  forward st1 st2 → forward st2 st3 → forward st1 st3.
Proof.
  intros (? & ? & ?) (? & ? & ?). repeat split; [congruence .. | lia].
Qed.

Lemma Next_forward st : forward st (Next st).2.
Proof.
  unfold Next. destruct (token_ st !! next_token_idx_ st); simpl;
    [apply forward_advance | apply forward_refl].
Qed.

Lemma forward_remaining st st' :
  forward st st' → remaining st' ≤ remaining st.
Proof. intros (Ht & _ & Hi). unfold remaining. rewrite Ht. lia. Qed.

Lemma HasNext_remaining st : HasNext st = true → 0 < remaining st.
Proof.
  unfold HasNext, remaining. rewrite bool_decide_eq_true. lia.
Qed.

Lemma remaining_advance st :
  HasNext st = true → S (remaining (advance st)) = remaining st.
Proof.
  unfold HasNext, remaining. rewrite bool_decide_eq_true. simpl. lia.
Qed.

End StreamTokenizer_properties.

(** ** Alias resolution *)

Section Alias_properties.
Import StreamTokenizer.
Context {t : ty}.
Implicit Types (env : Environment) (fr : Frame t) (varname : string).

Lemma Environment_Defined_true env varname :
  Environment_Defined env varname = true
  ↔ ∃ type, types_ env !! varname = Some type.
Proof.
  unfold Environment_Defined. rewrite bool_decide_eq_true.
  by rewrite not_eq_None_Some.
Qed.

Lemma Environment_GetVarMap_defined env varname type :
  types_ env !! varname = Some type →
  Environment_GetVarMap env varname
  = Ok (Environment_GetVarMapForType env type).
Proof.
  intros H. unfold Environment_GetVarMap, Environment_GetType.
  by rewrite H.
Qed.

(** When the next token is not a defined variable, alias resolution
    returns false and changes nothing. *)
Lemma alias_not_defined env varname fr :
  Environment_Defined env (Peek (st fr)) = false →
  ReadAndSetFromExistingVariable env varname fr = (Ok false, fr).
Proof.
  intros H. unfold ReadAndSetFromExistingVariable, bind, st_Peek.
  by rewrite H.
Qed.

(** Alias resolution returns false only then. *)
Lemma alias_false_inv env varname fr fr' :
  ReadAndSetFromExistingVariable env varname fr = (Ok false, fr') →
  Environment_Defined env (Peek (st fr)) = false ∧ fr' = fr.
Proof.
  unfold ReadAndSetFromExistingVariable, bind, st_Peek, lift, st_Next,
    this_Set, ret.
  destruct (Environment_Defined env (Peek (st fr))); [| by intros [= <-]].
  destruct (Environment_GetVarMap env (Peek (st fr))) as [p| | |];
    try done.
  destruct (dynamic_cast t p) as [m|]; [| done].
  destruct (Next (st fr)) as [[s| | |] st']; try done.
  destruct (Get (impl m) s (value_init t)) as [[] v]; done.
Qed.

(** C3. When the next token is a variable the environment defines and
    the table of that variable is a table of another type than this one,
    alias resolution returns true; the token is not consumed, nothing is
    bound and no error is raised: the table and the stream are as they
    were. *)
Theorem alias_type_mismatch env varname fr (type : string) (t' : ty)
    (var_map : VarMap t') :
  types_ env !! Peek (st fr) = Some type →
  Environment_GetVarMapForType env type = Some (existT t' var_map) →
  t' ≠ t →
  ReadAndSetFromExistingVariable env varname fr = (Ok true, fr).
Proof.
  intros Hdef Hmap Hne.
  unfold ReadAndSetFromExistingVariable, bind, st_Peek, lift.
  rewrite (proj2 (Environment_Defined_true _ _)) by eauto.
  rewrite (Environment_GetVarMap_defined _ _ _ Hdef), Hmap.
  by rewrite dynamic_cast_other.
Qed.

(** C4. When the next token is a variable the environment defines, the
    table of that variable is a table of the same type as this one, and
    that table holds no value for it, alias resolution consumes the
    token and returns true; nothing is bound and no error is raised. *)
Theorem alias_source_unset env varname fr (type : string)
    (typed_var_map : VarMap t) :
  HasNext (st fr) = true →
  types_ env !! Peek (st fr) = Some type →
  Environment_GetVarMapForType env type
  = Some (existT t typed_var_map) →
  vars_ (impl typed_var_map) !! Peek (st fr) = None →
  ReadAndSetFromExistingVariable env varname fr
  = (Ok true, {| this := this fr; st := advance (st fr) |}).
Proof.
  intros Hnext Hdef Hmap Hunset.
  unfold ReadAndSetFromExistingVariable, bind, st_Peek, lift, st_Next.
  rewrite (proj2 (Environment_Defined_true _ _)) by eauto.
  rewrite (Environment_GetVarMap_defined _ _ _ Hdef), Hmap.
  rewrite dynamic_cast_same, (Next_HasNext _ Hnext).
  by rewrite (Get_None _ _ _ Hunset).
Qed.

(** When the table of the variable holds a value for it, that value is
    bound to [varname] in this table and the token is consumed. *)
Lemma alias_source_set env varname fr (type : string)
    (typed_var_map : VarMap t) (a : val t) :
  HasNext (st fr) = true →
  types_ env !! Peek (st fr) = Some type →
  Environment_GetVarMapForType env type
  = Some (existT t typed_var_map) →
  vars_ (impl typed_var_map) !! Peek (st fr) = Some a →
  ReadAndSetFromExistingVariable env varname fr
  = (Ok true, {| this := VarMap_Set (this fr) varname a;
                 st := advance (st fr) |}).
Proof.
  intros Hnext Hdef Hmap Hset.
  unfold ReadAndSetFromExistingVariable, bind, st_Peek, lift, st_Next.
  rewrite (proj2 (Environment_Defined_true _ _)) by eauto.
  rewrite (Environment_GetVarMap_defined _ _ _ Hdef), Hmap.
  rewrite dynamic_cast_same, (Next_HasNext _ Hnext).
  by rewrite (Get_Some _ _ _ _ Hset).
Qed.

(** C2. Let [x] be bound to [a] in its table, a table of the same type
    as this one (this one, as a rule), and let the next token be [x].
    Alias resolution for another variable [y] returns true and leaves
    this table with [y] bound to [a], while [Get] of [x] in its table is
    still [a]. Binding [x] to [b] afterwards, in this table or in any
    other, leaves [y] bound to [a] in this table. *)
Theorem alias_copies_value env fr (type x y : string)
    (x_var_map : VarMap t) (a b value : val t) :
  x ≠ y →
  HasNext (st fr) = true →
  Peek (st fr) = x →
  types_ env !! x = Some type →
  Environment_GetVarMapForType env type
  = Some (existT t (VarMap_Set x_var_map x a)) →
  ∃ this',
    ReadAndSetFromExistingVariable env y fr
    = (Ok true, {| this := this'; st := advance (st fr) |})
    ∧ Get (impl this') y value = (true, a)
    ∧ Get (impl (VarMap_Set x_var_map x a)) x value = (true, a)
    ∧ Get (impl (VarMap_Set this' x b)) y value = (true, a)
    ∧ (this fr = VarMap_Set x_var_map x a →
       Get (impl this') x value = (true, a)).
Proof.
  intros Hne Hnext Hpeek Hdef Hmap.
  exists (VarMap_Set (this fr) y a). split; [| split; [| split; [| split]]].
  - apply (alias_source_set env y fr type (VarMap_Set x_var_map x a));
      rewrite ?Hpeek; try done.
    simpl. apply lookup_insert_eq.
  - apply Get_Set_eq.
  - apply Get_Set_eq.
  - simpl. rewrite Get_Set_ne by done. apply Get_Set_eq.
  - intros ->. simpl. rewrite Get_Set_ne by done. apply Get_Set_eq.
Qed.

End Alias_properties.

(** ** The vector table *)

Section Vector_properties.
Import StreamTokenizer.

Variable Environment_ReadAndSet :
  Environment → string → StreamTokenizer → string
  → outcome unit * (Environment * StreamTokenizer).
Context {e : ty}.
Variables (env : Environment) (varname : string).
Variable this0 : VarMap (TVector e).

#[local] Abbreviation element_read :=
  (element_read Environment_ReadAndSet env varname this0).
#[local] Abbreviation elements_before :=
  (elements_before Environment_ReadAndSet env varname this0).
#[local] Abbreviation element_list :=
  (element_list Environment_ReadAndSet env varname this0).

Lemma read_elements_S fuel value element_idx :
  read_elements Environment_ReadAndSet (S fuel) env varname value
                element_idx
  = (let* peeked := st_Peek in
     if bool_decide (peeked ≠ "}") then
       let env_ptr := Environment_Copy env in
       let element_name := element_name varname element_idx in
       let element_idx := S element_idx in
       let* element_typename := this_element_typename in
       let* env_ptr :=
         env_ptr_ReadAndSet Environment_ReadAndSet env_ptr element_name
                            element_typename in
       let element_var_map :=
         Environment_GetVarMapForType env_ptr element_typename in
       match dynamic_cast e element_var_map with
       | None => lift NullDeref
       | Some typed_element_var_map =>
           let '(found, element) :=
             Get (impl typed_element_var_map) element_name
                 (value_init e) in
           let* value :=
             (if found then ret (value ++ [element])%list
              else
                let* name := this_Name in
                Error (trouble_initializing_message
                         name (element_idx - 1) varname)) in
           let* peeked := st_Peek in
           let* _ :=
             (if bool_decide (peeked ≠ ",")
                 && bool_decide (peeked ≠ "}")
              then
                let* pos := st_PeekTokenStart in
                let* found := st_Peek in
                Error (expected_separator_message pos found)
              else ret tt) in
           let* peeked := st_Peek in
           let* _ :=
             (if bool_decide (peeked = ",")
              then let* _ := st_Next in ret tt
              else ret tt) in
           read_elements Environment_ReadAndSet fuel env varname value
                         element_idx
       end
     else ret value).
Proof. reflexivity. Qed.

(** The loop up to the test for a separator, when an element is read. *)
Lemma read_elements_element fuel value i st0 element st1 :
  element_read i st0 element st1 →
  read_elements Environment_ReadAndSet (S fuel) env varname value i
                {| this := this0; st := st0 |}
  = (let* peeked := st_Peek in
     let* _ :=
       (if bool_decide (peeked ≠ ",") && bool_decide (peeked ≠ "}")
        then
          let* pos := st_PeekTokenStart in
          let* found := st_Peek in
          Error (expected_separator_message pos found)
        else ret tt) in
     let* peeked := st_Peek in
     let* _ :=
       (if bool_decide (peeked = ",")
        then let* _ := st_Next in ret tt
        else ret tt) in
     read_elements Environment_ReadAndSet fuel env varname
                   (value ++ [element]) (S i))
      {| this := this0; st := st1 |}.
Proof.
  intros [env_ptr m Hopen Hread _ Htable Helement].
  rewrite read_elements_S.
  unfold bind at 1. unfold st_Peek at 1. cbn [st this].
  rewrite (bool_decide_true _ Hopen).
  unfold bind at 1. unfold this_element_typename at 1. cbn [st this].
  unfold bind at 1. unfold env_ptr_ReadAndSet at 1. cbn [st this].
  rewrite Hread.
  unfold table_of in Htable. rewrite Htable.
  rewrite (Get_Some _ _ _ _ Helement).
  reflexivity.
Qed.


Lemma bool_decide_ne_refl (s : string) : bool_decide (s ≠ s) = false.
Proof. apply bool_decide_false. by intros H. Qed.

Lemma bind_not_NullDeref {Σ A B : Type} (c : M Σ A) (k : A → M Σ B)
    (s : Σ) :
  (c s).1 ≠ NullDeref →
  (∀ a s', c s = (Ok a, s') → (k a s').1 ≠ NullDeref) →
  (bind c k s).1 ≠ NullDeref.
Proof. unfold bind. destruct (c s) as [[a| | |] s']; simpl; eauto. Qed.

Lemma bind_not_OutOfFuel {Σ A B : Type} (c : M Σ A) (k : A → M Σ B)
    (s : Σ) :
  (c s).1 ≠ OutOfFuel →
  (∀ a s', c s = (Ok a, s') → (k a s').1 ≠ OutOfFuel) →
  (bind c k s).1 ≠ OutOfFuel.
Proof. unfold bind. destruct (c s) as [[a| | |] s']; simpl; eauto. Qed.

Ltac run_monad :=
  unfold bind, ret, lift, Error, st_Peek, st_PeekTokenStart, st_PeekPrev,
    st_PeekPrevTokenStart, st_Next, st_remaining, this_Name, this_Set,
    this_element_typename;
  cbv beta iota; cbn [st this andb negb].

Lemma read_elements_closed fuel value i st0 :
  Peek st0 = "}" →
  read_elements Environment_ReadAndSet (S fuel) env varname value i
                {| this := this0; st := st0 |}
  = (Ok value, {| this := this0; st := st0 |}).
Proof.
  intros Hclose. rewrite read_elements_S. run_monad.
  by rewrite Hclose, bool_decide_ne_refl.
Qed.

Lemma read_elements_comma fuel value i st0 element st1 :
  element_read i st0 element st1 →
  Peek st1 = "," →
  read_elements Environment_ReadAndSet (S fuel) env varname value i
                {| this := this0; st := st0 |}
  = read_elements Environment_ReadAndSet fuel env varname
                  (value ++ [element]) (S i)
                  {| this := this0; st := advance st1 |}.
Proof.
  intros Hread Hcomma. rewrite (read_elements_element _ _ _ _ _ _ Hread).
  run_monad. rewrite Hcomma, bool_decide_ne_refl. run_monad.
  rewrite Hcomma, (bool_decide_true (_ = _)) by done. run_monad.
  rewrite Next_HasNext by (apply Peek_nonempty_HasNext; by rewrite Hcomma).
  reflexivity.
Qed.

Lemma read_elements_last fuel value i st0 element st1 :
  element_read i st0 element st1 →
  Peek st1 = "}" →
  read_elements Environment_ReadAndSet (S (S fuel)) env varname value i
                {| this := this0; st := st0 |}
  = (Ok (value ++ [element]), {| this := this0; st := st1 |}).
Proof.
  intros Hread Hclose. rewrite (read_elements_element _ _ _ _ _ _ Hread).
  run_monad. rewrite Hclose, bool_decide_ne_refl, andb_false_r. run_monad.
  rewrite Hclose, (bool_decide_false (_ = _)) by done. run_monad.
  by apply read_elements_closed.
Qed.

Lemma read_elements_separator fuel value i st0 element st1 :
  element_read i st0 element st1 →
  Peek st1 ≠ "," →
  Peek st1 ≠ "}" →
  read_elements Environment_ReadAndSet (S fuel) env varname value i
                {| this := this0; st := st0 |}
  = (Failed (expected_separator_message (PeekTokenStart st1) (Peek st1)),
     {| this := this0; st := st1 |}).
Proof.
  intros Hread Hcomma Hclose.
  rewrite (read_elements_element _ _ _ _ _ _ Hread).
  run_monad. by rewrite !bool_decide_true.
Qed.

Lemma read_elements_unset fuel value i st0 env_ptr st1
    (typed_element_var_map : VarMap e) :
  Peek st0 ≠ "}" →
  Environment_ReadAndSet (Environment_Copy env) (element_name varname i)
    st0 (element_typename_ this0 : string)
  = (Ok tt, (env_ptr, st1)) →
  table_of e env_ptr (element_typename_ this0 : string)
  = Some typed_element_var_map →
  vars_ (impl typed_element_var_map) !! element_name varname i = None →
  read_elements Environment_ReadAndSet (S fuel) env varname value i
                {| this := this0; st := st0 |}
  = (Failed (trouble_initializing_message (Name (impl this0)) i varname),
     {| this := this0; st := st1 |}).
Proof.
  intros Hopen Hread Htable Hunset. rewrite read_elements_S.
  unfold bind at 1. unfold st_Peek at 1. cbn [st this].
  rewrite (bool_decide_true _ Hopen).
  unfold bind at 1. unfold this_element_typename at 1. cbn [st this].
  unfold bind at 1. unfold env_ptr_ReadAndSet at 1. cbn [st this].
  rewrite Hread.
  unfold table_of in Htable. rewrite Htable.
  rewrite (Get_None _ _ _ Hunset). run_monad.
  by rewrite Nat.sub_1_r.
Qed.

Lemma read_elements_before elements i st0 j st1 :
  elements_before i st0 elements j st1 →
  ∀ fuel value,
    read_elements Environment_ReadAndSet (length elements + fuel) env
                  varname value i {| this := this0; st := st0 |}
    = read_elements Environment_ReadAndSet fuel env varname
                    (value ++ elements) j {| this := this0; st := st1 |}.
Proof.
  induction 1 as [i st0|i st0 element st1 elements j st2 Hread Hcomma _ IH];
    intros fuel value.
  - by rewrite app_nil_r.
  - cbn [length plus]. rewrite (read_elements_comma _ _ _ _ _ _ Hread Hcomma).
    rewrite IH. by rewrite <- app_assoc.
Qed.

Lemma element_read_remaining i st0 element st1 :
  element_read i st0 element st1 →
  HasNext st1 = true →
  0 < remaining st1 ≤ remaining st0.
Proof.
  intros [_ _ _ _ Hfwd _ _] Hnext. split.
  - by apply HasNext_remaining.
  - by apply forward_remaining.
Qed.

Lemma elements_before_remaining elements i st0 j st1 :
  elements_before i st0 elements j st1 →
  length elements + remaining st1 ≤ remaining st0
  ∧ j = i + length elements.
Proof.
  induction 1 as [i st0|i st0 element st1 elements j st2 Hread Hcomma _ IH].
  - simpl. lia.
  - assert (HasNext st1 = true) as Hnext
        by (apply Peek_nonempty_HasNext; by rewrite Hcomma).
    pose proof (element_read_remaining _ _ _ _ Hread Hnext).
    pose proof (remaining_advance _ Hnext). cbn [length]. lia.
Qed.


(** The call up to the loop, when alias resolution does not handle it and
    the next token is the opening brace. *)
Lemma VarMapVector_ReadAndSet_open st0 :
  ReadAndSetFromExistingVariable env varname {| this := this0; st := st0 |}
  = (Ok false, {| this := this0; st := st0 |}) →
  Peek st0 = "{" →
  VarMapVector_ReadAndSet Environment_ReadAndSet env varname
                          {| this := this0; st := st0 |}
  = (let* value :=
       read_elements Environment_ReadAndSet
                     (S (remaining (advance st0))) env varname [] 0 in
     let* _ := st_Next in
     this_Set (t := TVector e) varname value)
      {| this := this0; st := advance st0 |}.
Proof.
  intros Halias Hopen. unfold VarMapVector_ReadAndSet.
  unfold bind at 1. rewrite Halias. cbn [negb].
  unfold bind at 1. unfold st_Peek at 1. cbn [st this].
  unfold bind at 1. rewrite Hopen, bool_decide_true by done.
  unfold bind at 1. unfold st_Next at 1. cbn [st this].
  rewrite Next_HasNext by (apply Peek_nonempty_HasNext; by rewrite Hopen).
  unfold ret at 1. unfold bind at 1. unfold st_remaining at 1.
  reflexivity.
Qed.

(** C1. When alias resolution does not handle the call and the stream
    holds an opening brace, a list of elements and a closing brace, the
    call returns with [varname] bound to the elements read, as many as
    there are in the list and in the order of the list, each one the value
    the environment's [ReadAndSet] left in a copy of the environment; the
    stream is then past the closing brace. In particular [{ }] binds
    [varname] to the empty vector. *)
Theorem VarMapVector_ReadAndSet_list st0 elements st1 :
  ReadAndSetFromExistingVariable env varname {| this := this0; st := st0 |}
  = (Ok false, {| this := this0; st := st0 |}) →
  Peek st0 = "{" →
  element_list (advance st0) elements st1 →
  VarMapVector_ReadAndSet Environment_ReadAndSet env varname
                          {| this := this0; st := st0 |}
  = (Ok tt, {| this := VarMap_Set this0 varname elements;
               st := advance st1 |})
  ∧ Get (impl (VarMap_Set this0 varname elements)) varname []
    = (true, elements).
Proof.
  intros Halias Hopen Hlist. split; [| apply Get_Set_eq].
  rewrite (VarMapVector_ReadAndSet_open _ Halias Hopen).
  assert (HasNext st1 = true ∧ Peek st1 = "}") as [Hnext Hclose].
  { destruct Hlist as [? _ Hclose|? ? ? ? _ _ Hclose _];
      (split; [apply Peek_nonempty_HasNext; by rewrite Hclose | done]). }
  assert (
    read_elements Environment_ReadAndSet (S (remaining (advance st0))) env
                  varname [] 0 {| this := this0; st := advance st0 |}
    = (Ok elements, {| this := this0; st := st1 |})) as Hloop.
  { destruct Hlist as [j Hbefore _|before j st' element Hbefore Hread _ ->].
    - destruct (elements_before_remaining _ _ _ _ _ Hbefore) as [Hrem _].
      replace (S (remaining (advance st0)))
        with (length elements
              + S (remaining (advance st0) - length elements)) by lia.
      rewrite (read_elements_before _ _ _ _ _ Hbefore).
      by apply read_elements_closed.
    - destruct (elements_before_remaining _ _ _ _ _ Hbefore) as [Hrem _].
      pose proof (element_read_remaining _ _ _ _ Hread Hnext).
      replace (S (remaining (advance st0)))
        with (length before
              + S (S (remaining (advance st0) - length before - 1)))
        by lia.
      rewrite (read_elements_before _ _ _ _ _ Hbefore).
      by apply read_elements_last. }
  unfold bind at 1. rewrite Hloop.
  unfold bind, st_Next, this_Set. cbn [st this].
  by rewrite (Next_HasNext _ Hnext).
Qed.

(** C5. When alias resolution does not handle the call: if the next token
    is not an opening brace, the call fails with the message that names
    the position where the token before it starts, and neither the table
    nor the stream has changed; if, after the opening brace and some
    elements each followed by a comma, an element is read and the token
    after it is neither a comma nor a closing brace, the call fails with
    the message that names the position where that token starts, and the
    table has not changed. *)
Theorem VarMapVector_ReadAndSet_syntax_error st0 :
  ReadAndSetFromExistingVariable env varname {| this := this0; st := st0 |}
  = (Ok false, {| this := this0; st := st0 |}) →
  (Peek st0 ≠ "{" →
   VarMapVector_ReadAndSet Environment_ReadAndSet env varname
                           {| this := this0; st := st0 |}
   = (Failed (expected_open_brace_message (PeekPrevTokenStart st0)
                                          (PeekPrev st0)),
      {| this := this0; st := st0 |}))
  ∧ (∀ before j st1 element st2,
        Peek st0 = "{" →
        elements_before 0 (advance st0) before j st1 →
        element_read j st1 element st2 →
        Peek st2 ≠ "," →
        Peek st2 ≠ "}" →
        VarMapVector_ReadAndSet Environment_ReadAndSet env varname
                                {| this := this0; st := st0 |}
        = (Failed (expected_separator_message (PeekTokenStart st2)
                                              (Peek st2)),
           {| this := this0; st := st2 |})).
Proof.
  intros Halias. split.
  - intros Hopen. unfold VarMapVector_ReadAndSet.
    unfold bind at 1. rewrite Halias. run_monad.
    by rewrite bool_decide_false.
  - intros before j st1 element st2 Hopen Hbefore Hread Hcomma Hclose.
    rewrite (VarMapVector_ReadAndSet_open _ Halias Hopen).
    destruct (elements_before_remaining _ _ _ _ _ Hbefore) as [Hrem _].
    replace (S (remaining (advance st0)))
      with (length before + S (remaining (advance st0) - length before))
      by lia.
    unfold bind at 1. rewrite (read_elements_before _ _ _ _ _ Hbefore).
    by rewrite (read_elements_separator _ _ _ _ _ _ Hread Hcomma Hclose).
Qed.

(** C8. When, after the opening brace and some elements each followed by
    a comma, the environment's [ReadAndSet] returns for the next element
    and the table of the element type in the copy of the environment
    holds nothing under the name made up for the element, the call fails
    with the message that names the index of the element and [varname],
    and the table has not changed. *)
Theorem VarMapVector_ReadAndSet_element_unset st0 before j st1 env_ptr st2
    (typed_element_var_map : VarMap e) :
  ReadAndSetFromExistingVariable env varname {| this := this0; st := st0 |}
  = (Ok false, {| this := this0; st := st0 |}) →
  Peek st0 = "{" →
  elements_before 0 (advance st0) before j st1 →
  Peek st1 ≠ "}" →
  Environment_ReadAndSet (Environment_Copy env) (element_name varname j)
    st1 (element_typename_ this0 : string)
  = (Ok tt, (env_ptr, st2)) →
  table_of e env_ptr (element_typename_ this0 : string)
  = Some typed_element_var_map →
  vars_ (impl typed_element_var_map) !! element_name varname j = None →
  VarMapVector_ReadAndSet Environment_ReadAndSet env varname
                          {| this := this0; st := st0 |}
  = (Failed (trouble_initializing_message (Name (impl this0)) j varname),
     {| this := this0; st := st2 |})
  ∧ j = length before.
Proof.
  intros Halias Hopen Hbefore Hnotclosed Hread Htable Hunset.
  destruct (elements_before_remaining _ _ _ _ _ Hbefore) as [Hrem Hj].
  split; [| done].
  rewrite (VarMapVector_ReadAndSet_open _ Halias Hopen).
  replace (S (remaining (advance st0)))
    with (length before + S (remaining (advance st0) - length before))
    by lia.
  unfold bind at 1. rewrite (read_elements_before _ _ _ _ _ Hbefore).
  by rewrite (read_elements_unset _ _ _ _ _ _ _ Hnotclosed Hread Htable
                                  Hunset).
Qed.


(** Alias resolution dereferences [typed_var_map] only when the cast gave
    a table. *)
Lemma alias_not_NullDeref {t : ty} (fr : Frame t) :
  (ReadAndSetFromExistingVariable env varname fr).1 ≠ NullDeref.
Proof.
  unfold ReadAndSetFromExistingVariable. run_monad.
  destruct (Environment_Defined env (Peek (st fr))); [| done].
  unfold Environment_GetVarMap, Environment_GetType.
  destruct (types_ env !! Peek (st fr)) as [type|]; [| done].
  destruct (dynamic_cast t _) as [m|]; [| done].
  unfold Next. destruct (token_ (st fr) !! _) as [k|]; [| done].
  destruct (Get (impl m) (tok k) (value_init t)) as [[] v]; done.
Qed.

Section No_null_dereference.

(** The environment's [ReadAndSet] does not itself run into a null
    pointer when it reads an element. *)
Hypothesis callee_not_NullDeref :
  ∀ element_name st1,
    (Environment_ReadAndSet (Environment_Copy env) element_name st1
                            (element_typename_ this0 : string)).1
    ≠ NullDeref.

(** When it returns, the copy of the environment has, under the name of
    the element type, a table of the element type. *)
Hypothesis element_table_registered :
  ∀ element_name st1 env_ptr st2,
    Environment_ReadAndSet (Environment_Copy env) element_name st1
                           (element_typename_ this0 : string)
    = (Ok tt, (env_ptr, st2)) →
    ∃ typed_element_var_map : VarMap e,
      Environment_GetVarMapForType env_ptr
                                   (element_typename_ this0 : string)
      = Some (existT e typed_element_var_map).

Lemma read_elements_not_NullDeref fuel :
  ∀ value i st0,
    (read_elements Environment_ReadAndSet fuel env varname value i
                   {| this := this0; st := st0 |}).1 ≠ NullDeref.
Proof.
  induction fuel as [|fuel IH]; intros value i st0; [done |].
  rewrite read_elements_S. run_monad.
  destruct (bool_decide (Peek st0 ≠ "}")); [| done].
  unfold env_ptr_ReadAndSet. cbn [st this].
  pose proof (callee_not_NullDeref (element_name varname i) st0) as Hcallee.
  pose proof (element_table_registered (element_name varname i) st0)
    as Htable.
  destruct (Environment_ReadAndSet _ _ st0 _) as [[[]| | |] [env_ptr st1]];
    try done.
  destruct (Htable env_ptr st1 eq_refl) as [m ->].
  rewrite dynamic_cast_same.
  destruct (Get (impl m) _ _) as [[] element]; [| done]. run_monad.
  destruct (bool_decide (Peek st1 ≠ ",") && bool_decide (Peek st1 ≠ "}"));
    [done |].
  run_monad. destruct (bool_decide (Peek st1 = ",")); run_monad.
  - unfold Next. destruct (token_ st1 !! _) as [k|]; [| done]. apply IH.
  - apply IH.
Qed.

Lemma after_open_not_NullDeref st1 :
  ((let* value :=
      read_elements Environment_ReadAndSet (S (remaining st1)) env
                    varname [] 0 in
    let* _ := st_Next in
    this_Set (t := TVector e) varname value)
     {| this := this0; st := st1 |}).1 ≠ NullDeref.
Proof.
  apply bind_not_NullDeref; [apply read_elements_not_NullDeref |].
  intros value fr _. apply bind_not_NullDeref; [| done].
  unfold st_Next, Next. by destruct (token_ (st fr) !! _).
Qed.

(** C10. In every turn of the loop the table [GetVarMapForType] gives for
    the element type is cast and then used for [Get] with no test for
    null, which is [NullDeref] here when the cast gives null. If, whenever
    the environment's [ReadAndSet] returns, the copy of the environment
    has a table of the element type under the name of the element type,
    the cast does not give null: the call ends with a result or an error,
    never with the dereference of a null pointer. *)
Theorem VarMapVector_ReadAndSet_no_null_dereference st0 :
  (VarMapVector_ReadAndSet Environment_ReadAndSet env varname
                           {| this := this0; st := st0 |}).1 ≠ NullDeref.
Proof.
  unfold VarMapVector_ReadAndSet.
  apply bind_not_NullDeref; [apply alias_not_NullDeref |].
  intros [] fr Hfr; [done |]. apply alias_false_inv in Hfr as [_ ->].
  cbn [negb]. unfold bind at 1. unfold st_Peek at 1. cbn [st this].
  unfold bind at 1. destruct (bool_decide (Peek st0 = "{")).
  - unfold bind at 1. unfold st_Next at 1, Next. cbn [st this].
    destruct (token_ st0 !! _) as [k|]; [| done].
    unfold ret at 1. unfold bind at 1. unfold st_remaining at 1.
    apply after_open_not_NullDeref.
  - done.
Qed.

End No_null_dereference.


Lemma alias_not_OutOfFuel {t : ty} (fr : Frame t) :
  (ReadAndSetFromExistingVariable env varname fr).1 ≠ OutOfFuel.
Proof.
  unfold ReadAndSetFromExistingVariable. run_monad.
  destruct (Environment_Defined env (Peek (st fr))); [| done].
  unfold Environment_GetVarMap, Environment_GetType.
  destruct (types_ env !! Peek (st fr)) as [type|]; [| done].
  destruct (dynamic_cast t _) as [m|]; [| done].
  unfold Next. destruct (token_ (st fr) !! _) as [k|]; [| done].
  destruct (Get (impl m) (tok k) (value_init t)) as [[] v]; done.
Qed.

Section Termination.

(** The environment's [ReadAndSet] comes back when it reads an element,
    and it only reads the stream forward. *)
Hypothesis callee_not_OutOfFuel :
  ∀ element_name st1,
    (Environment_ReadAndSet (Environment_Copy env) element_name st1
                            (element_typename_ this0 : string)).1
    ≠ OutOfFuel.

Hypothesis callee_forward :
  ∀ element_name st1 r env_ptr st2,
    Environment_ReadAndSet (Environment_Copy env) element_name st1
                           (element_typename_ this0 : string)
    = (r, (env_ptr, st2)) →
    forward st1 st2.



End Termination.

End Vector_properties.

(** ** The environment's ReadAndSet *)

Lemma Environment_Copy_GetVarMapForType (env : Environment)
    (type : string) :
  Environment_GetVarMapForType (Environment_Copy env) type
  = VarMapBase_Copy <$> Environment_GetVarMapForType env type.
Proof.
  unfold Environment_GetVarMapForType, Environment_Copy. simpl.
  apply lookup_fmap.
Qed.

Lemma EnvironmentImpl_ReadAndSet_S Init depth env varname tokens type :
  EnvironmentImpl_ReadAndSet Init (S depth) env varname tokens type
  = match Environment_GetVarMapForType env type with
    | None =>
        (Failed ("Environment::ReadAndSet: unknown type " +:+ type),
         (env, tokens))
    | Some (existT t var_map) =>
        let '(r, fr) :=
          VarMapBase_ReadAndSet
            Init (EnvironmentImpl_ReadAndSet Init depth) t env varname
            {| this := var_map; st := tokens |} in
        (r,
         ({| var_map_ := <[lookup_type_of env type := existT t (this fr)]>
                           (var_map_ env);
             types_ := match r with
                       | Ok _ => <[varname := lookup_type_of env type]>
                                   (types_ env)
                       | _ => types_ env
                       end;
             concrete_to_factory_type_ := concrete_to_factory_type_ env |},
          st fr))
    end.
Proof. reflexivity. Qed.

(** The environment's [ReadAndSet] keeps the table of the declared type a
    table of the same C++ type. *)
Lemma EnvironmentImpl_ReadAndSet_registered Init depth env varname tokens
    type r env' st' (t : ty) (var_map : VarMap t) :
  EnvironmentImpl_ReadAndSet Init depth env varname tokens type
  = (r, (env', st')) →
  Environment_GetVarMapForType env type = Some (existT t var_map) →
  ∃ var_map' : VarMap t,
    Environment_GetVarMapForType env' type = Some (existT t var_map').
Proof.
  destruct depth as [|depth].
  - intros [= _ <- _] H. eauto.
  - rewrite EnvironmentImpl_ReadAndSet_S. intros Hrun Hmap.
    rewrite Hmap in Hrun.
    destruct (VarMapBase_ReadAndSet _ _ _ _ _ _) as [r' fr].
    injection Hrun as _ <- _.
    unfold Environment_GetVarMapForType. cbn [var_map_
      concrete_to_factory_type_]. fold (lookup_type_of env type).
    rewrite lookup_insert_eq. eauto.
Qed.

Lemma literal_Init_not_NullDeref t env st0 :
  (literal_Init t env st0).1 ≠ NullDeref.
Proof.
  unfold literal_Init, StreamTokenizer.Next.
  destruct (StreamTokenizer.token_ st0 !! _) as [k|]; [| done].
  destruct t; simpl; try done.
  - repeat case_bool_decide; done.
  - by destruct (NilZero.int_of_string _).
Qed.

Lemma VarMap_ReadAndSet_not_NullDeref Init {t : ty} env varname
    (fr : Frame t) :
  (∀ t env st0, (Init t env st0).1 ≠ NullDeref) →
  (VarMap_ReadAndSet Init env varname fr).1 ≠ NullDeref.
Proof.
  intros HInit. unfold VarMap_ReadAndSet.
  apply bind_not_NullDeref; [apply alias_not_NullDeref |].
  intros [] fr' _; [done |]. cbn [negb].
  apply bind_not_NullDeref; [| done].
  unfold initializer_Init. specialize (HInit t env (st fr')).
  by destruct (Init t env (st fr')).
Qed.

(** Reading a value whose table is not a vector table never runs into a
    null pointer. *)
Lemma EnvironmentImpl_ReadAndSet_not_NullDeref Init depth env varname
    tokens type (t : ty) (var_map : VarMap t) :
  (∀ t env st0, (Init t env st0).1 ≠ NullDeref) →
  Environment_GetVarMapForType env type = Some (existT t var_map) →
  (∀ e, t ≠ TVector e) →
  (EnvironmentImpl_ReadAndSet Init depth env varname tokens type).1
  ≠ NullDeref.
Proof.
  intros HInit Hmap Hscalar.
  destruct depth as [|depth]; [done |].
  rewrite EnvironmentImpl_ReadAndSet_S, Hmap.
  pose proof (VarMap_ReadAndSet_not_NullDeref Init (t := t) env varname
                {| this := var_map; st := tokens |} HInit) as Hno.
  destruct t; simpl; try (by destruct (VarMap_ReadAndSet _ _ _ _)).
  by destruct (Hscalar t).
Qed.

(** ** The environment's ReadAndSet reads forward and comes back *)

Lemma alias_forward {t : ty} env varname (fr : Frame t) :
  StreamTokenizer.forward
    (st fr) (st (ReadAndSetFromExistingVariable env varname fr).2).
Proof.
  unfold ReadAndSetFromExistingVariable, bind, st_Peek, lift, st_Next,
    this_Set, ret.
  cbv beta iota. cbn [st this].
  destruct (Environment_Defined env _); [| apply forward_refl].
  destruct (Environment_GetVarMap env _) as [p| | |];
    try apply forward_refl.
  destruct (dynamic_cast t p) as [m|]; [| apply forward_refl].
  pose proof (Next_forward (st fr)) as Hnext.
  destruct (StreamTokenizer.Next (st fr)) as [[s| | |] st']; try done.
  by destruct (Get (impl m) s (value_init t)) as [[] v].
Qed.

Lemma literal_Init_not_OutOfFuel t env st0 :
  (literal_Init t env st0).1 ≠ OutOfFuel.
Proof.
  unfold literal_Init, StreamTokenizer.Next.
  destruct (StreamTokenizer.token_ st0 !! _) as [k|]; [| done].
  destruct t; simpl; try done.
  - repeat case_bool_decide; done.
  - by destruct (NilZero.int_of_string _).
Qed.

Lemma literal_Init_forward t env st0 :
  StreamTokenizer.forward st0 (literal_Init t env st0).2.
Proof.
  unfold literal_Init. pose proof (Next_forward st0) as Hnext.
  by destruct (StreamTokenizer.Next st0) as [[s| | |] st'].
Qed.

Section Scalar_tables.
Import StreamTokenizer.

Variable Init :
  ∀ t : ty, Environment → StreamTokenizer
            → outcome (val t) * StreamTokenizer.
Hypothesis Init_not_OutOfFuel : ∀ t env st0, (Init t env st0).1 ≠ OutOfFuel.
Hypothesis Init_forward : ∀ t env st0, forward st0 (Init t env st0).2.

Lemma VarMap_ReadAndSet_not_OutOfFuel {t : ty} env varname (fr : Frame t) :
  (VarMap_ReadAndSet Init env varname fr).1 ≠ OutOfFuel.
Proof.
  unfold VarMap_ReadAndSet.
  apply bind_not_OutOfFuel; [apply alias_not_OutOfFuel |].
  intros [] fr' _; [done |]. cbn [negb].
  apply bind_not_OutOfFuel; [| done].
  unfold initializer_Init. specialize (Init_not_OutOfFuel t env (st fr')).
  by destruct (Init t env (st fr')).
Qed.

Lemma VarMap_ReadAndSet_forward {t : ty} env varname (fr : Frame t) :
  forward (st fr) (st (VarMap_ReadAndSet Init env varname fr).2).
Proof.
  unfold VarMap_ReadAndSet, bind.
  pose proof (alias_forward env varname fr) as Halias.
  destruct (ReadAndSetFromExistingVariable env varname fr)
    as [[[]| | |] fr']; try done.
  cbn [negb]. unfold initializer_Init, this_Set.
  pose proof (Init_forward t env (st fr')) as HInit.
  destruct (Init t env (st fr')) as [[v| | |] st'];
    by apply (forward_trans _ _ _ Halias).
Qed.

(** Reading a value whose table is not a vector table comes back, with the
    stream read forward. *)
Lemma EnvironmentImpl_ReadAndSet_scalar depth env varname tokens type
    (t : ty) (var_map : VarMap t) :
  Environment_GetVarMapForType env type = Some (existT t var_map) →
  (∀ e, t ≠ TVector e) →
  (EnvironmentImpl_ReadAndSet Init (S depth) env varname tokens type).1
  ≠ OutOfFuel
  ∧ forward tokens
      (EnvironmentImpl_ReadAndSet Init (S depth) env varname tokens
                                  type).2.2.
Proof.
  intros Hmap Hscalar. rewrite EnvironmentImpl_ReadAndSet_S, Hmap.
  pose proof (VarMap_ReadAndSet_not_OutOfFuel (t := t) env varname
                {| this := var_map; st := tokens |}) as Hno.
  pose proof (VarMap_ReadAndSet_forward (t := t) env varname
                {| this := var_map; st := tokens |}) as Hfwd.
  destruct t as [| | |cls|e]; simpl;
    try (by destruct (VarMap_ReadAndSet _ _ _ _)).
  by destruct (Hscalar e).
Qed.

End Scalar_tables.

(** Reading an element of a vector of [int] comes back, with the stream
    read forward, whatever the stream holds. *)
Lemma int_element_scalar (element_name : string) (st1 : StreamTokenizer) :
  (read_element_of_vector (Environment_Copy primitive_env) element_name
                          st1 "int").1 ≠ OutOfFuel
  ∧ StreamTokenizer.forward st1
      (read_element_of_vector (Environment_Copy primitive_env) element_name
                              st1 "int").2.2.
Proof.
  assert (Environment_GetVarMapForType (Environment_Copy primitive_env)
                                       "int"
          = Some (existT TInt (VarMap_Copy int_table))) as Hint
      by (by vm_compute).
  by apply (EnvironmentImpl_ReadAndSet_scalar
              literal_Init literal_Init_not_OutOfFuel
              literal_Init_forward 0 _ _ _ _ TInt _ Hint).
Qed.


Lemma int_element_forward (element_name : string)
    (st1 : StreamTokenizer) (r : outcome unit) (env_ptr : Environment)
    (st2 : StreamTokenizer) :
  read_element_of_vector (Environment_Copy primitive_env) element_name
                         st1 (element_typename_ int_vector_table : string)
  = (r, (env_ptr, st2)) →
  StreamTokenizer.forward st1 st2.
Proof.
  intros Hrun.
  destruct (int_element_scalar element_name st1) as [_ Hfwd].
  cbn [element_typename_ int_vector_table VarMap_new] in Hrun.
  by rewrite Hrun in Hfwd.
Qed.

(** ** The tables at work *)

Section Examples.
Import StreamTokenizer.

Ltac element_is_read :=
  eapply element_read_intro;
  [ by vm_compute
  | vm_compute; reflexivity
  | repeat split; simpl; lia
  | vm_compute; reflexivity
  | vm_compute; reflexivity ].

(** [int[] xs = { 1, 2, 3 };] and [int[] xs = { };] *)
Lemma VarMapVector_ReadAndSet_list_witness :
  VarMapVector_ReadAndSet read_element_of_vector primitive_env "xs"
    {| this := int_vector_table; st := three_ints |}
  = (Ok tt,
     {| this := VarMap_Set int_vector_table "xs" [1; 2; 3]%Z;
        st := at_token 7 three_ints |})
  ∧ VarMapVector_ReadAndSet read_element_of_vector primitive_env "xs"
      {| this := int_vector_table; st := no_ints |}
    = (Ok tt,
       {| this := VarMap_Set int_vector_table "xs" [];
          st := at_token 2 no_ints |}).
Proof.
  split.
  - apply (VarMapVector_ReadAndSet_list read_element_of_vector
             primitive_env "xs" int_vector_table three_ints [1; 2; 3]%Z
             (at_token 6 three_ints)).
    + reflexivity.
    + reflexivity.
    + eapply element_list_last with (before := [1; 2]%Z) (element := 3%Z);
        [ | | reflexivity | reflexivity ].
      * eapply elements_before_comma; [element_is_read | reflexivity |].
        eapply elements_before_comma; [element_is_read | reflexivity |].
        apply elements_before_nil.
      * element_is_read.
  - apply (VarMapVector_ReadAndSet_list read_element_of_vector
             primitive_env "xs" int_vector_table no_ints []
             (at_token 1 no_ints)).
    + reflexivity.
    + reflexivity.
    + eapply element_list_closed; [apply elements_before_nil | reflexivity].
Defined.


(** [int[] xs = 1;] and [int[] xs = { 1 2 };] *)
Lemma VarMapVector_ReadAndSet_syntax_error_witness :
  VarMapVector_ReadAndSet read_element_of_vector primitive_env "xs"
    {| this := int_vector_table; st := no_brace |}
  = (Failed (expected_open_brace_message 0 ""),
     {| this := int_vector_table; st := no_brace |})
  ∧ VarMapVector_ReadAndSet read_element_of_vector primitive_env "xs"
      {| this := int_vector_table; st := no_comma |}
    = (Failed (expected_separator_message 2 "2"),
       {| this := int_vector_table; st := at_token 2 no_comma |}).
Proof.
  split.
  - apply (VarMapVector_ReadAndSet_syntax_error read_element_of_vector
             primitive_env "xs" int_vector_table no_brace eq_refl).
    by vm_compute.
  - apply (proj2 (VarMapVector_ReadAndSet_syntax_error
                    read_element_of_vector primitive_env "xs"
                    int_vector_table no_comma eq_refl)
             [] 0 (at_token 1 no_comma) 1%Z (at_token 2 no_comma)).
    + reflexivity.
    + apply elements_before_nil.
    + element_is_read.
    + by vm_compute.
    + by vm_compute.
Defined.

(** [int[] xs = { s };] where [s] is a string: the table of [int] does not
    take the element from [s] and says nothing, and the vector table finds
    no element. *)
Lemma VarMapVector_ReadAndSet_element_unset_witness :
  VarMapVector_ReadAndSet read_element_of_vector env_s "xs"
    {| this := int_vector_table; st := one_name |}
  = (Failed (trouble_initializing_message "int[]" 0 "xs"),
     {| this := int_vector_table; st := at_token 1 one_name |})
  ∧ 0 = length (@nil Z).
Proof.
  eapply (VarMapVector_ReadAndSet_element_unset read_element_of_vector
            env_s "xs" int_vector_table one_name [] 0
            (at_token 1 one_name) _ (at_token 1 one_name)).
  - reflexivity.
  - reflexivity.
  - apply elements_before_nil.
  - by vm_compute.
  - vm_compute. reflexivity.
  - vm_compute. reflexivity.
  - vm_compute. reflexivity.
Defined.

(** The table of vectors of [int] in the environment of the primitive
    types. *)
Lemma VarMapVector_ReadAndSet_no_null_dereference_witness :
  (VarMapVector_ReadAndSet read_element_of_vector primitive_env "xs"
     {| this := int_vector_table; st := three_ints |}).1 ≠ NullDeref.
Proof.
  assert (Environment_GetVarMapForType (Environment_Copy primitive_env)
                                       "int"
          = Some (existT TInt (VarMap_Copy int_table))) as Hint
      by (by vm_compute).
  apply (VarMapVector_ReadAndSet_no_null_dereference
           read_element_of_vector primitive_env "xs" int_vector_table).
  - intros element_name st1.
    by apply (EnvironmentImpl_ReadAndSet_not_NullDeref
                literal_Init 1 _ _ _ _ TInt _
                literal_Init_not_NullDeref Hint).
  - intros element_name st1 env_ptr st2 Hrun.
    apply (EnvironmentImpl_ReadAndSet_registered _ _ _ _ _ _ _ _ _ _ _
             Hrun Hint).
Defined.

(** Without that table the cast gives null and [Get] is called through it:
    a table of vectors of [int] whose element type name is [string] reads
    the element into the table of [string] and then looks for it through
    the null pointer. *)
Lemma VarMapVector_ReadAndSet_null_dereference :
  (VarMapVector_ReadAndSet read_element_of_vector primitive_env "xs"
     {| this := misdeclared_table; st := one_name |}).1 = NullDeref.
Proof. by vm_compute. Qed.

(** [int y = s;] where [s] is a string. *)
Lemma alias_type_mismatch_witness :
  ReadAndSetFromExistingVariable env_s "y"
    {| this := int_table; st := of_tokens ["s"; ";"] |}
  = (Ok true, {| this := int_table; st := of_tokens ["s"; ";"] |}).
Proof.
  apply (alias_type_mismatch env_s "y"
           {| this := int_table; st := of_tokens ["s"; ";"] |}
           "string" TString
           (VarMap_Set (VarMap_new TString "string" tt) "s" "hello")).
  - by vm_compute.
  - by vm_compute.
  - discriminate.
Defined.

(** [int z = y;] after [int y = s;] left [y] defined and without a
    value. *)
Lemma alias_source_unset_witness :
  ReadAndSetFromExistingVariable env_y "z"
    {| this := int_table; st := of_tokens ["y"; ";"] |}
  = (Ok true,
     {| this := int_table; st := at_token 1 (of_tokens ["y"; ";"]) |}).
Proof.
  apply (alias_source_unset env_y "z"
           {| this := int_table; st := of_tokens ["y"; ";"] |}
           "int" int_table).
  - reflexivity.
  - by vm_compute.
  - by vm_compute.
  - by vm_compute.
Defined.

(** [int y = x;] after [int x = 1;], and then [x] bound to 2. *)
Lemma alias_copies_value_witness :
  ∃ this',
    ReadAndSetFromExistingVariable env_x "y"
      {| this := VarMap_Set int_table "x" 1%Z;
         st := of_tokens ["x"; ";"] |}
    = (Ok true,
       {| this := this'; st := advance (of_tokens ["x"; ";"]) |})
    ∧ Get (impl this') "y" 0%Z = (true, 1%Z)
    ∧ Get (impl (VarMap_Set int_table "x" 1%Z)) "x" 0%Z = (true, 1%Z)
    ∧ Get (impl (VarMap_Set this' "x" 2%Z)) "y" 0%Z = (true, 1%Z)
    ∧ (VarMap_Set int_table "x" 1%Z = VarMap_Set int_table "x" 1%Z →
       Get (impl this') "x" 0%Z = (true, 1%Z)).
Proof.
  apply (alias_copies_value env_x
           {| this := VarMap_Set int_table "x" 1%Z;
              st := of_tokens ["x"; ";"] |}
           "int" "x" "y" int_table 1%Z 2%Z 0%Z).
  - discriminate.
  - reflexivity.
  - reflexivity.
  - by vm_compute.
  - by vm_compute.
Defined.

End Examples.


(** * More on the value formatter *)

Lemma append_cons (c : Ascii.ascii) (a b : string) :
  String c a +:+ b = String c (a +:+ b).
Proof. reflexivity. Qed.

Lemma length_append (a b : string) :
  String.length (a +:+ b) = String.length a + String.length b.
Proof.
  induction a as [|c a IH]; [done |].
  rewrite append_cons. simpl. by rewrite IH.
Qed.

Lemma append_inj_l (a s s' : string) : a +:+ s = a +:+ s' → s = s'.
Proof.
  induction a as [|c a IH]; [done |].
  rewrite !append_cons. intros [= H]. by apply IH.
Qed.

Lemma append_inj_r (s s' d : string) : s +:+ d = s' +:+ d → s = s'.
Proof.
  revert s'. induction s as [|c s IH]; intros [|c' s'] H.
  - done.
  - apply (f_equal String.length) in H.
    rewrite !length_append in H. simpl in H. lia.
  - apply (f_equal String.length) in H.
    rewrite !length_append in H. simpl in H. lia.
  - rewrite !append_cons in H. injection H as -> H. f_equal. by apply IH.
Qed.

Lemma free_of_app (bad : Ascii.ascii → bool) (a b : string) :
  free_of bad (a +:+ b) = free_of bad a && free_of bad b.
Proof.
  induction a as [|c a IH]; [done |].
  rewrite append_cons. simpl. by rewrite IH, andb_assoc.
Qed.

(** Two texts, each a plain text and then a text that starts with a
    separator, are the same only if both parts are. *)
Lemma plain_split (a a' r r' : string) :
  plain a = true → plain a' = true →
  starts_with_separator r = true → starts_with_separator r' = true →
  a +:+ r = a' +:+ r' → a = a' ∧ r = r'.
Proof.
  unfold plain.
  revert a'. induction a as [|c a IH]; intros [|c' a'] Ha Ha' Hr Hr' H.
  - done.
  - exfalso. change ("" +:+ r) with r in H. rewrite append_cons in H.
    subst r. simpl in Hr, Ha'. rewrite Hr in Ha'. done.
  - exfalso. change ("" +:+ r') with r' in H. rewrite append_cons in H.
    subst r'. simpl in Hr', Ha. rewrite Hr' in Ha. done.
  - rewrite !append_cons in H. injection H as -> H.
    simpl in Ha, Ha'. apply andb_true_iff in Ha as [_ Ha].
    apply andb_true_iff in Ha' as [_ Ha'].
    destruct (IH a' Ha Ha' Hr Hr' H) as [-> ->]. done.
Qed.

Section Vector_texts.
Context {T : Type} (value_string : ValueString T).

Hypothesis value_string_inj :
  ∀ x y, value_string x = value_string y → x = y.
Hypothesis value_string_plain : ∀ x, plain (value_string x) = true.
Hypothesis value_string_nonempty : ∀ x, value_string x ≠ "".

Lemma rest_starts_with_separator (it : list T) :
  starts_with_separator
    (text_of (λ y, ", " +:+ value_string y) it +:+ "}") = true.
Proof. by destruct it. Qed.

Lemma rest_inj (it it' : list T) :
  text_of (λ y, ", " +:+ value_string y) it +:+ "}"
  = text_of (λ y, ", " +:+ value_string y) it' +:+ "}" →
  it = it'.
Proof.
  revert it'. induction it as [|y it IH]; intros [|y' it'] H; try done.
  unfold text_of in H. cbn [foldr] in H.
  fold (text_of (λ y, ", " +:+ value_string y) it) in H.
  fold (text_of (λ y, ", " +:+ value_string y) it') in H.
  rewrite !append_assoc in H. apply append_inj_l in H.
  apply plain_split in H as [Hy Hrest];
    auto using rest_starts_with_separator.
  f_equal; auto.
Qed.

Lemma ValueString_vector_inj (value value' : list T) :
  ValueString_vector value_string value
  = ValueString_vector value_string value' →
  value = value'.
Proof.
  rewrite !ValueString_vector_concat. intros H. apply append_inj_l in H.
  destruct value as [|x it], value' as [|x' it'].
  - done.
  - exfalso. cbn [map] in H. rewrite concat_cons_text, append_assoc in H.
    apply (plain_split "") in H as [H _];
      auto using rest_starts_with_separator.
    by apply (value_string_nonempty x').
  - exfalso. cbn [map] in H. rewrite concat_cons_text, append_assoc in H.
    apply (plain_split _ "") in H as [H _];
      auto using rest_starts_with_separator.
    by apply (value_string_nonempty x).
  - cbn [map] in H. rewrite !concat_cons_text, !append_assoc in H.
    apply plain_split in H as [Hx Hrest];
      auto using rest_starts_with_separator.
    f_equal; [auto | by apply rest_inj].
Qed.

End Vector_texts.

Section Numerals.
Variable bad : Ascii.ascii → bool.
Hypothesis digit_not_bad : ∀ x : N, bad (pretty_N_char x) = false.

Lemma pretty_N_go_free_of (x : N) :
  ∀ s, ∃ d, pretty_N_go x s = d +:+ s ∧ free_of bad d = true
            ∧ ((0 < x)%N → d ≠ "").
Proof.
  induction (N.lt_wf_0 x) as [x _ IH]. intros s.
  destruct (decide (x = 0)%N) as [-> | Hx].
  - exists "". rewrite pretty_N_go_0. split; [done |]. split; [done | lia].
  - rewrite pretty_N_go_step by lia.
    destruct (IH (x `div` 10)%N) with
      (s := String (pretty_N_char (x `mod` 10)) s) as (d & -> & Hd & _).
    { apply N.div_lt; lia. }
    exists (d +:+ String (pretty_N_char (x `mod` 10)) "").
    split; [by rewrite append_assoc |]. split.
    + rewrite free_of_app, Hd. simpl. by rewrite digit_not_bad.
    + intros _ H. apply (f_equal String.length) in H.
      rewrite length_append in H. simpl in H. lia.
Qed.

Lemma pretty_N_free_of (x : N) :
  free_of bad (pretty x) = true ∧ pretty x ≠ "".
Proof.
  unfold pretty, pretty_N. case_decide as Hx.
  - split; [| done]. pose proof (digit_not_bad 0) as H0.
    simpl in *. by rewrite H0.
  - destruct (pretty_N_go_free_of x "") as (d & -> & Hd & Hne).
    rewrite append_nil_r. split; [done |]. apply Hne. lia.
Qed.

End Numerals.

Lemma digit_not_separator (x : N) : is_separator (pretty_N_char x) = false.
Proof. unfold pretty_N_char. by repeat case_match. Qed.

Lemma digit_not_underscore (x : N) :
  is_underscore (pretty_N_char x) = false.
Proof. unfold pretty_N_char. by repeat case_match. Qed.

Lemma pretty_Z_plain (z : Z) : plain (pretty z) = true ∧ pretty z ≠ "".
Proof.
  unfold plain.
  destruct z as [|p|p]; [done | |].
  - apply (pretty_N_free_of _ digit_not_separator (Npos p)).
  - change (pretty (Zneg p)) with ("-" +:+ pretty (Npos p)).
    destruct (pretty_N_free_of _ digit_not_separator (Npos p)) as [Hp _].
    split; [| done]. rewrite free_of_app. by rewrite Hp.
Qed.

(** X5. The text of a [bool], of an [int] and of a [string] determines
    the value: two values with the same text are the same value. *)
Theorem ToString_scalar_inj :
  (∀ x y : bool,
      ToString (T := val TBool) x = ToString (T := val TBool) y → x = y)
  ∧ (∀ x y : Z,
        ToString (T := val TInt) x = ToString (T := val TInt) y → x = y)
  ∧ (∀ x y : string,
        ToString (T := val TString) x = ToString (T := val TString) y
        → x = y).
Proof.
  split; [| split].
  - by intros [] [].
  - intros x y H. by apply (inj pretty).
  - intros x y H. unfold ToString in H. simpl in H.
    unfold ValueString_string in H.
    apply append_inj_l in H. by apply append_inj_r in H.
Qed.

(** X6. The text of a vector of [bool] and of a vector of [int]
    determines the vector. *)
Theorem ToString_vector_inj :
  (∀ value value' : list bool,
      ToString (T := val (TVector TBool)) value
      = ToString (T := val (TVector TBool)) value' → value = value')
  ∧ (∀ value value' : list Z,
        ToString (T := val (TVector TInt)) value
        = ToString (T := val (TVector TInt)) value' → value = value').
Proof.
  split.
  - apply (ValueString_vector_inj ValueString_bool).
    + by intros [] [].
    + by intros [].
    + by intros [].
  - apply (ValueString_vector_inj (ValueString_primary (T := Z))).
    + intros x y H. by apply (inj pretty).
    + intros x. apply pretty_Z_plain.
    + intros x. apply pretty_Z_plain.
Qed.

(** X7. The text of a vector of [string] does not determine the vector:
    a double quote inside a string is written as it is, so that the one
    string [a", "b] and the two strings [a] and [b] give the same text. *)
Theorem ToString_string_vector_not_inj :
  ¬ (∀ value value' : list string,
        ToString (T := val (TVector TString)) value
        = ToString (T := val (TVector TString)) value' → value = value').
Proof.
  intros Hinj.
  specialize (Hinj ["a" +:+ dquote +:+ ", " +:+ dquote +:+ "b"] ["a"; "b"]).
  by specialize (Hinj ltac:(by vm_compute)).
Qed.

(** * More on the generic table *)

Section VarMapImpl_more.
Context {T : Type}.
Implicit Types (this : VarMapImpl T) (varname : string) (value : T).

(** X1. After [Set(varname, v)], [Get(varname)] returns true and gives
    [v], whatever the table held before, and [Get] of every other name
    gives what it gave before; the name and the flag of the table are as
    before. *)
Theorem Set_Get_round_trip this varname v value :
  Get (Set_ this varname v) varname value = (true, v)
  ∧ (∀ varname', varname' ≠ varname →
       Get (Set_ this varname v) varname' value = Get this varname' value)
  ∧ Name (Set_ this varname v) = Name this
  ∧ IsPrimitive (Set_ this varname v) = IsPrimitive this.
Proof.
  split; [apply Get_Set_eq |]. split; [| done].
  intros varname' Hne. by apply Get_Set_ne.
Qed.

(** X2. Of two [Set] of the same name the second one wins, and two [Set]
    of different names give the same bindings in either order. *)
Theorem Set_Set this varname varname' v v' :
  vars_ (Set_ (Set_ this varname v) varname v')
  = vars_ (Set_ this varname v')
  ∧ (varname ≠ varname' →
     vars_ (Set_ (Set_ this varname v) varname' v')
     = vars_ (Set_ (Set_ this varname' v') varname v)).
Proof.
  simpl. split; [apply insert_insert_eq |].
  intros Hne. by apply insert_insert_ne.
Qed.

(** [Set] never unbinds. *)
Lemma Set_keeps_defined this varname v varname' :
  Defined_ this varname' = true →
  Defined_ (Set_ this varname v) varname' = true.
Proof.
  unfold Defined_. simpl. intros H. apply bool_decide_eq_true in H.
  apply bool_decide_eq_true.
  destruct (decide (varname = varname')) as [<- | Hne].
  - by rewrite lookup_insert_eq.
  - by rewrite lookup_insert_ne.
Qed.

(** X3. [Set] never unbinds: after [Set(varname, v)] a name is defined
    exactly when it is [varname] or was defined before. *)
Theorem Defined_Set this varname v varname' :
  Defined_ (Set_ this varname v) varname'
  = bool_decide (varname = varname') || Defined_ this varname'.
Proof.
  unfold Defined_. simpl.
  destruct (decide (varname = varname')) as [<- | Hne].
  - rewrite lookup_insert_eq.
    rewrite (bool_decide_true (varname = varname)) by done.
    by rewrite bool_decide_true.
  - rewrite lookup_insert_ne by done.
    by rewrite (bool_decide_false (varname = varname')).
Qed.

(** X4. [Print] only appends: what it writes does not depend on what the
    stream already holds, and for a table without variables it writes
    nothing. *)
Theorem Print_appends {U : UnorderedMap} {VS : ValueString T} this os :
  visits_every_entry_once U →
  Print_ this os = os +:+ Print_ this ""
  ∧ (vars_ this = ∅ → Print_ this os = os).
Proof.
  intros Hvisits. rewrite !Print_text. split; [done |].
  intros Hempty. specialize (Hvisits T (vars_inserted_ this) (vars_ this)).
  rewrite Hempty, map_to_list_empty in Hvisits.
  apply Permutation_nil_r in Hvisits. rewrite Hempty, Hvisits.
  apply append_nil_r.
Qed.

End VarMapImpl_more.

(** A table of [int] with [x] and [y], and the empty one. *)
Lemma Print_appends_witness :
  let this := VarMap_Set (VarMap_Set (VarMap_new TInt "int" tt) "x" 1%Z)
                         "y" 2%Z in
  (Print_ (U := newest_first) (VS := ValueString_of TInt) (impl this)
          "// "
   = "// " +:+ Print_ (U := newest_first) (VS := ValueString_of TInt)
                      (impl this) ""
   ∧ (vars_ (impl this) = ∅ →
      Print_ (U := newest_first) (VS := ValueString_of TInt) (impl this)
             "// " = "// "))
  ∧ Print_ (U := newest_first) (VS := ValueString_of TInt)
           (impl (VarMap_new TInt "int" tt)) "// " = "// ".
Proof.
  intros this. split.
  - apply (Print_appends (U := newest_first) (VS := ValueString_of TInt)
             (impl this) "// ").
    apply newest_first_visits_every_entry_once.
  - apply (Print_appends (U := newest_first) (VS := ValueString_of TInt)
             (impl (VarMap_new TInt "int" tt)) "// ");
      [apply newest_first_visits_every_entry_once | reflexivity].
Defined.

(** * More on alias resolution and on VarMap<T>::ReadAndSet *)

Lemma Get_true_inv {T : Type} (this : VarMapImpl T) varname value v :
  Get this varname value = (true, v) → vars_ this !! varname = Some v.
Proof.
  unfold Get. destruct (vars_ this !! varname); by intros [= <-] || done.
Qed.

Section Alias_more.
Import StreamTokenizer.
Context {t : ty}.
Implicit Types (env : Environment) (fr : Frame t) (varname : string).

(** X8. Alias resolution returns false exactly when the next token is not
    a variable the environment defines, and then it has changed neither
    the table nor the stream. *)
Theorem alias_false_iff env varname fr :
  ((ReadAndSetFromExistingVariable env varname fr).1 = Ok false
   ↔ Environment_Defined env (Peek (st fr)) = false)
  ∧ (Environment_Defined env (Peek (st fr)) = false →
     ReadAndSetFromExistingVariable env varname fr = (Ok false, fr)).
Proof.
  split; [| apply alias_not_defined]. split.
  - destruct (ReadAndSetFromExistingVariable env varname fr)
      as [r fr'] eqn:Hrun.
    simpl. intros ->. by apply alias_false_inv in Hrun as [? _].
  - intros H. by rewrite alias_not_defined.
Qed.

(** What alias resolution does to the table. *)
Lemma alias_table env varname fr :
  let r := ReadAndSetFromExistingVariable env varname fr in
  (∀ name, name ≠ varname →
     vars_ (impl (this r.2)) !! name = vars_ (impl (this fr)) !! name)
  ∧ (∀ name, Defined_ (impl (this fr)) name = true →
       Defined_ (impl (this r.2)) name = true)
  ∧ (r.1 ≠ Ok true → r.2 = fr).
Proof.
  destruct fr as [this0 st0].
  unfold ReadAndSetFromExistingVariable, bind, st_Peek, lift, st_Next,
    this_Set, ret.
  cbv beta iota zeta. cbn [st this].
  destruct (Environment_Defined env _); [| by repeat split].
  destruct (Environment_GetVarMap env _) as [p| | |]; try by repeat split.
  destruct (dynamic_cast t p) as [m|]; [| by repeat split].
  unfold Next. cbn [st this].
  destruct (token_ st0 !! _) as [k|]; [| by repeat split].
  destruct (Get (impl m) (tok k) (value_init t)) as [[] v];
    cbn [fst snd st this].
  - split; [| split; [| done]].
    + intros name Hne. simpl. by rewrite lookup_insert_ne.
    + intros name. unfold VarMap_Set. cbn [impl].
      apply Set_keeps_defined.
  - split; [done |]. split; [done |]. intros H. by destruct H.
Qed.

(** X9. Alias resolution consumes one token or none, and never goes back
    in the stream; it changes no binding but that of [varname], and
    unbinds nothing; unless it returns true, the table and the stream are
    as they were. *)
Theorem alias_frame env varname fr :
  let r := ReadAndSetFromExistingVariable env varname fr in
  forward (st fr) (st r.2)
  ∧ next_token_idx_ (st r.2) ≤ S (next_token_idx_ (st fr))
  ∧ (∀ name, name ≠ varname →
       vars_ (impl (this r.2)) !! name = vars_ (impl (this fr)) !! name)
  ∧ (∀ name, Defined_ (impl (this fr)) name = true →
       Defined_ (impl (this r.2)) name = true)
  ∧ (r.1 ≠ Ok true → r.2 = fr).
Proof.
  split; [apply alias_forward |]. split; [| apply alias_table].
  destruct fr as [this0 st0].
  unfold ReadAndSetFromExistingVariable, bind, st_Peek, lift, st_Next,
    this_Set, ret.
  cbv beta iota zeta. cbn [st this].
  destruct (Environment_Defined env _); [| simpl; lia].
  destruct (Environment_GetVarMap env _) as [p| | |]; try (simpl; lia).
  destruct (dynamic_cast t p) as [m|]; [| simpl; lia].
  unfold Next. cbn [st this].
  destruct (token_ st0 !! _) as [k|]; [| simpl; lia].
  destruct (Get (impl m) (tok k) (value_init t)) as [[] v]; simpl; lia.
Qed.

(** A token that names a variable is always handled. *)
Lemma alias_defined env varname fr :
  Environment_Defined env (Peek (st fr)) = true →
  HasNext (st fr) = true →
  (ReadAndSetFromExistingVariable env varname fr).1 = Ok true.
Proof.
  intros Hdef Hnext.
  unfold ReadAndSetFromExistingVariable, bind, st_Peek, lift, st_Next,
    this_Set, ret.
  cbv beta iota zeta. cbn [st this]. rewrite Hdef.
  apply Environment_Defined_true in Hdef as [type Htype].
  rewrite (Environment_GetVarMap_defined _ _ _ Htype).
  destruct (dynamic_cast t _) as [m|]; [| done].
  rewrite (Next_HasNext _ Hnext).
  by destruct (Get (impl m) _ (value_init t)) as [[] v].
Qed.

(** X10. Alias resolution raises no error as long as the stream has a
    next token. *)
Theorem alias_no_error env varname fr :
  HasNext (st fr) = true →
  ∃ handled, (ReadAndSetFromExistingVariable env varname fr).1 = Ok handled.
Proof.
  intros Hnext.
  unfold ReadAndSetFromExistingVariable, bind, st_Peek, lift, st_Next,
    this_Set, ret.
  cbv beta iota zeta. cbn [st this].
  destruct (Environment_Defined env _) eqn:Hdef; [| by eexists].
  apply Environment_Defined_true in Hdef as [type Htype].
  rewrite (Environment_GetVarMap_defined _ _ _ Htype).
  destruct (dynamic_cast t _) as [m|]; [| by eexists].
  rewrite (Next_HasNext _ Hnext).
  destruct (Get (impl m) _ (value_init t)) as [[] v]; by eexists.
Qed.

End Alias_more.

Section Scalar_more.
Import StreamTokenizer.
Variable Init :
  ∀ t : ty, Environment → StreamTokenizer
            → outcome (val t) * StreamTokenizer.
Context {t : ty}.
Implicit Types (env : Environment) (fr : Frame t) (varname : string).

(** X11. When the next token names a variable the environment defines,
    [VarMap<T>::ReadAndSet] is alias resolution and nothing more: the
    initializer is not called, whatever it is, and the call returns with
    the table and the stream as alias resolution left them. So it is when
    the variable is of another type, where nothing is bound and no token
    is consumed. *)
Theorem VarMap_ReadAndSet_alias_handled env varname fr :
  Environment_Defined env (Peek (st fr)) = true →
  HasNext (st fr) = true →
  VarMap_ReadAndSet Init env varname fr
  = (Ok tt, (ReadAndSetFromExistingVariable env varname fr).2).
Proof.
  intros Hdef Hnext.
  pose proof (alias_defined env varname fr Hdef Hnext) as Hhandled.
  unfold VarMap_ReadAndSet, bind.
  destruct (ReadAndSetFromExistingVariable env varname fr) as [r fr'].
  simpl in Hhandled. by subst r.
Qed.

(** X12. When the next token is not a variable the environment defines,
    [VarMap<T>::ReadAndSet] binds [varname] to the value the initializer
    reads and leaves the stream where the initializer left it; when the
    initializer fails, so does the call. *)
Theorem VarMap_ReadAndSet_Init env varname fr :
  Environment_Defined env (Peek (st fr)) = false →
  (∀ v st',
      Init t env (st fr) = (Ok v, st') →
      VarMap_ReadAndSet Init env varname fr
      = (Ok tt, {| this := VarMap_Set (this fr) varname v; st := st' |}))
  ∧ (∀ msg st',
        Init t env (st fr) = (Failed msg, st') →
        VarMap_ReadAndSet Init env varname fr
        = (Failed msg, {| this := this fr; st := st' |})).
Proof.
  intros Hdef. unfold VarMap_ReadAndSet, bind.
  rewrite (alias_not_defined _ _ _ Hdef). cbn [negb].
  unfold initializer_Init, this_Set.
  split; intros ? st' ->; done.
Qed.

(** X13. [VarMap<T>::ReadAndSet] changes no binding but that of [varname]
    and unbinds nothing; unless it returns normally, the table is as it
    was. *)
Theorem VarMap_ReadAndSet_frame env varname fr :
  let r := VarMap_ReadAndSet Init env varname fr in
  (∀ name, name ≠ varname →
     vars_ (impl (this r.2)) !! name = vars_ (impl (this fr)) !! name)
  ∧ (∀ name, Defined_ (impl (this fr)) name = true →
       Defined_ (impl (this r.2)) name = true)
  ∧ (r.1 ≠ Ok tt → this r.2 = this fr).
Proof.
  unfold VarMap_ReadAndSet, bind.
  destruct (alias_table env varname fr) as (Hother & Hdef & Hsame).
  destruct (ReadAndSetFromExistingVariable env varname fr)
    as [[[]| | |] fr'] eqn:Hrun; cbn [negb fst snd] in *.
  - split; [done |]. split; [done |]. intros H. by destruct H.
  - rewrite (Hsame ltac:(done)).
    unfold initializer_Init, this_Set.
    destruct (Init t env (st fr)) as [[v| | |] st']; cbn [fst snd st this];
      try by repeat split.
    split; [| split; [| intros H; by destruct H]].
    + intros name Hne. simpl. by rewrite lookup_insert_ne.
    + intros name. unfold VarMap_Set. cbn [impl].
      apply Set_keeps_defined.
  - rewrite (Hsame ltac:(done)). by repeat split.
  - rewrite (Hsame ltac:(done)). by repeat split.
  - rewrite (Hsame ltac:(done)). by repeat split.
Qed.

End Scalar_more.

(** ** The names made up for the elements *)

Lemma free_of_underscore_inj (a a' d d' : string) :
  free_of is_underscore d = true → free_of is_underscore d' = true →
  a +:+ "_" +:+ d = a' +:+ "_" +:+ d' → a = a' ∧ d = d'.
Proof.
  intros Hd Hd'. revert a'.
  induction a as [|c a IH]; intros [|c' a'] H.
  - by injection H.
  - exfalso. change ("" +:+ "_" +:+ d) with (String underscore_char d) in H.
    rewrite append_cons in H. injection H as _ H. subst d.
    rewrite free_of_app in Hd. apply andb_true_iff in Hd as [_ Hd].
    done.
  - exfalso. change ("" +:+ "_" +:+ d') with (String underscore_char d') in H.
    rewrite append_cons in H. injection H as _ H. subst d'.
    rewrite free_of_app in Hd'. apply andb_true_iff in Hd' as [_ Hd'].
    done.
  - rewrite !append_cons in H. injection H as -> H.
    by destruct (IH a' H) as [-> ->].
Qed.

(** X19. The names made up for the elements of vectors tell the variable
    and the index apart: two of them are the same only for the same
    variable and the same index. *)
Theorem element_name_inj varname varname' (element_idx element_idx' : nat) :
  element_name varname element_idx = element_name varname' element_idx' →
  varname = varname' ∧ element_idx = element_idx'.
Proof.
  unfold element_name. intros H. apply append_inj_l in H.
  rewrite <- !(append_assoc _ _ "____"), <- !(append_assoc _ "_" _) in H.
  apply append_inj_r in H. rewrite !append_assoc in H.
  apply free_of_underscore_inj in H as [-> H].
  - split; [done |]. by apply (inj pretty).
  - apply (pretty_N_free_of _ digit_not_underscore).
  - apply (pretty_N_free_of _ digit_not_underscore).
Qed.

Lemma element_name_inj_witness :
  "xs" = "xs" ∧ 3 = 3.
Proof. by apply (element_name_inj "xs" "xs" 3 3). Defined.

(** * More on VarMap<vector<T>>::ReadAndSet *)

Section Vector_more.
Import StreamTokenizer.

Variable Environment_ReadAndSet :
  Environment → string → StreamTokenizer → string
  → outcome unit * (Environment * StreamTokenizer).
Context {e : ty}.
Variables (env : Environment) (varname : string).
Variable this0 : VarMap (TVector e).

#[local] Abbreviation element_read :=
  (element_read Environment_ReadAndSet env varname this0).
#[local] Abbreviation elements_before :=
  (elements_before Environment_ReadAndSet env varname this0).
#[local] Abbreviation element_list :=
  (element_list Environment_ReadAndSet env varname this0).

Ltac run_monad :=
  unfold bind, ret, lift, Error, st_Peek, st_PeekTokenStart, st_PeekPrev,
    st_PeekPrevTokenStart, st_Next, st_remaining, this_Name, this_Set,
    this_element_typename;
  cbv beta iota; cbn [st this andb negb].

(** The loop never touches the table. *)
Lemma read_elements_this fuel :
  ∀ value i st0,
    this (read_elements Environment_ReadAndSet fuel env varname value i
                        {| this := this0; st := st0 |}).2 = this0.
Proof.
  induction fuel as [|fuel IH]; intros value i st0; [done |].
  rewrite read_elements_S. run_monad.
  destruct (bool_decide (Peek st0 ≠ "}")); [| done].
  unfold env_ptr_ReadAndSet. cbn [st this].
  destruct (Environment_ReadAndSet _ _ st0 _) as [[[]| | |] [env_ptr st1]];
    try done.
  destruct (dynamic_cast e _) as [m|]; [| done].
  destruct (Get (impl m) _ _) as [[] element]; [| done]. run_monad.
  destruct (bool_decide (Peek st1 ≠ ",") && bool_decide (Peek st1 ≠ "}"));
    [done |].
  run_monad. destruct (bool_decide (Peek st1 = ",")); run_monad.
  - unfold Next. destruct (token_ st1 !! _) as [k|]; [| done]. apply IH.
  - apply IH.
Qed.

(** X14. When the next token names a variable the environment defines,
    [VarMap<vector<T>>::ReadAndSet] is alias resolution and nothing more:
    no brace is looked for and no element is read, and the call returns
    with the table and the stream as alias resolution left them. So a
    vector is bound to the whole vector of the variable the next token
    names. *)
Theorem VarMapVector_ReadAndSet_alias_handled (fr : Frame (TVector e)) :
  Environment_Defined env (Peek (st fr)) = true →
  HasNext (st fr) = true →
  VarMapVector_ReadAndSet Environment_ReadAndSet env varname fr
  = (Ok tt, (ReadAndSetFromExistingVariable env varname fr).2).
Proof.
  intros Hdef Hnext.
  pose proof (alias_defined env varname fr Hdef Hnext) as Hhandled.
  unfold VarMapVector_ReadAndSet, bind.
  destruct (ReadAndSetFromExistingVariable env varname fr) as [r fr'].
  simpl in Hhandled. by subst r.
Qed.

(** X15. [VarMap<vector<T>>::ReadAndSet] changes no binding but that of
    [varname] and unbinds nothing; unless it returns normally, whatever
    the error and wherever it comes from, the table is as it was. *)
Theorem VarMapVector_ReadAndSet_frame st0 :
  let r := VarMapVector_ReadAndSet Environment_ReadAndSet env varname
             {| this := this0; st := st0 |} in
  (∀ name, name ≠ varname →
     vars_ (impl (this r.2)) !! name = vars_ (impl this0) !! name)
  ∧ (∀ name, Defined_ (impl this0) name = true →
       Defined_ (impl (this r.2)) name = true)
  ∧ (r.1 ≠ Ok tt → this r.2 = this0).
Proof.
  cbv zeta.
  destruct (VarMapVector_ReadAndSet _ _ _ _) as [o fr1] eqn:Hrun.
  cbn [fst snd]. revert Hrun.
  unfold VarMapVector_ReadAndSet. unfold bind at 1.
  destruct (alias_table env varname {| this := this0; st := st0 |})
    as (Hother & Hdef & Hsame).
  destruct (ReadAndSetFromExistingVariable env varname _)
    as [[[]| | |] fr'] eqn:Halias; cbn [negb fst snd st this] in *.
  - intros [= <- <-]. split; [done |]. split; [done |].
    intros H. by destruct H.
  - rewrite (Hsame ltac:(done)).
    unfold bind at 1. unfold st_Peek at 1. cbn [st this].
    unfold bind at 1. destruct (bool_decide (Peek st0 = "{")).
    2: { unfold bind, st_PeekPrevTokenStart, st_PeekPrev, Error.
         cbn [st this]. intros [= <- <-]. by repeat split. }
    unfold bind at 1. unfold st_Next at 1, Next. cbn [st this].
    destruct (token_ st0 !! _) as [k|].
    2: { intros [= <- <-]. by repeat split. }
    unfold ret at 1. unfold bind at 1. unfold st_remaining at 1.
    cbn [st this]. unfold bind at 1.
    pose proof (read_elements_this
                  (S (remaining (advance st0))) [] 0 (advance st0))
      as Hthis.
    destruct (read_elements _ _ _ _ _ _ _) as [[value| | |] [this1 st1]];
      cbn [fst snd st this] in *; subst this1;
      try (intros [= <- <-]; by repeat split).
    unfold bind, st_Next, this_Set, Next. cbn [st this].
    destruct (token_ st1 !! _) as [k'|]; cbn [fst snd st this].
    2: { intros [= <- <-]. by repeat split. }
    intros [= <- <-].
    split; [| split; [| intros H; by destruct H]].
    + intros name Hne. simpl. by rewrite lookup_insert_ne.
    + intros name. unfold VarMap_Set. cbn [impl this].
      apply Set_keeps_defined.
  - rewrite (Hsame ltac:(done)). intros [= <- <-]. by repeat split.
  - rewrite (Hsame ltac:(done)). intros [= <- <-]. by repeat split.
  - rewrite (Hsame ltac:(done)). intros [= <- <-]. by repeat split.
Qed.

Section Forward_callee.

(** The environment's [ReadAndSet] only reads the stream forward. *)
Hypothesis callee_forward :
  ∀ element_name st1 r env_ptr st2,
    Environment_ReadAndSet (Environment_Copy env) element_name st1
                           (element_typename_ this0 : string)
    = (r, (env_ptr, st2)) →
    forward st1 st2.

Lemma read_elements_forward fuel :
  ∀ value i st0,
    forward st0
      (st (read_elements Environment_ReadAndSet fuel env varname value i
                         {| this := this0; st := st0 |}).2).
Proof.
  induction fuel as [|fuel IH]; intros value i st0; [apply forward_refl |].
  rewrite read_elements_S. run_monad.
  destruct (bool_decide (Peek st0 ≠ "}")); [| apply forward_refl].
  unfold env_ptr_ReadAndSet. cbn [st this].
  pose proof (callee_forward (element_name varname i) st0) as Hforward.
  destruct (Environment_ReadAndSet _ _ st0 _) as [r [env_ptr st1]].
  specialize (Hforward _ _ _ eq_refl).
  destruct r as [[]| | |]; try done.
  destruct (dynamic_cast e _) as [m|]; [| done].
  destruct (Get (impl m) _ _) as [[] element]; [| done]. run_monad.
  destruct (bool_decide (Peek st1 ≠ ",") && bool_decide (Peek st1 ≠ "}"));
    [done |].
  run_monad. destruct (bool_decide (Peek st1 = ",")); run_monad.
  - unfold Next. destruct (token_ st1 !! _) as [k|]; [| done].
    apply (forward_trans _ _ _ Hforward).
    apply (forward_trans _ _ _ (forward_advance st1)). apply IH.
  - apply (forward_trans _ _ _ Hforward). apply IH.
Qed.

(** X17. [VarMap<vector<T>>::ReadAndSet] never goes back in the stream,
    whatever its outcome, when the environment's [ReadAndSet] does
    not. *)
Theorem VarMapVector_ReadAndSet_forward st0 :
  forward st0
    (st (VarMapVector_ReadAndSet Environment_ReadAndSet env varname
           {| this := this0; st := st0 |}).2).
Proof.
  unfold VarMapVector_ReadAndSet. unfold bind at 1.
  pose proof (alias_forward env varname {| this := this0; st := st0 |})
    as Halias.
  pose proof (alias_table env varname {| this := this0; st := st0 |})
    as (_ & _ & Hsame).
  destruct (ReadAndSetFromExistingVariable env varname _)
    as [[[]| | |] fr'] eqn:Hrun; cbn [negb fst snd st this] in *;
    try done.
  rewrite (Hsame ltac:(done)).
  unfold bind at 1. unfold st_Peek at 1. cbn [st this].
  unfold bind at 1. destruct (bool_decide (Peek st0 = "{")).
  - unfold bind at 1. unfold st_Next at 1, Next. cbn [st this].
    destruct (token_ st0 !! _) as [k|]; [| apply forward_refl].
    unfold ret at 1. unfold bind at 1. unfold st_remaining at 1.
    cbn [st this]. unfold bind at 1.
    pose proof (read_elements_forward
                  (S (remaining (advance st0))) [] 0 (advance st0))
      as Hloop.
    apply (forward_trans _ _ _ (forward_advance st0)).
    destruct (read_elements _ _ _ _ _ _ _) as [[value| | |] [this1 st1]];
      cbn [fst snd st this] in *; try done.
    unfold bind, st_Next, this_Set. cbn [st this].
    pose proof (Next_forward st1) as Hnext.
    destruct (Next st1) as [[s| | |] st2]; cbn [fst snd st this] in *;
      by apply (forward_trans _ _ _ Hloop).
  - apply forward_refl.
Qed.

(** What a normal return of the loop says of the stream it has read. *)
Lemma read_elements_Ok fuel :
  ∀ value i st0 elements fr',
    read_elements Environment_ReadAndSet fuel env varname value i
                  {| this := this0; st := st0 |}
    = (Ok elements, fr') →
    this fr' = this0
    ∧ Peek (st fr') = "}"
    ∧ ∃ before j st',
        elements_before i st0 before j st'
        ∧ ((elements = value ++ before ∧ st fr' = st')
           ∨ ∃ element,
               element_read j st' element (st fr')
               ∧ elements = value ++ before ++ [element]).
Proof.
  induction fuel as [|fuel IH]; intros value i st0 elements fr'; [done |].
  rewrite read_elements_S. run_monad.
  destruct (bool_decide (Peek st0 ≠ "}")) eqn:Hopen.
  2: { apply bool_decide_eq_false, dec_stable in Hopen.
       intros [= <- <-]. cbn [st this]. split; [done |]. split; [done |].
       exists [], i, st0. split; [constructor |]. left.
       by rewrite app_nil_r. }
  apply bool_decide_eq_true in Hopen.
  unfold env_ptr_ReadAndSet. cbn [st this].
  pose proof (callee_forward (element_name varname i) st0) as Hforward.
  destruct (Environment_ReadAndSet _ _ st0 _)
    as [r [env_ptr st1]] eqn:Hread.
  specialize (Hforward _ _ _ eq_refl).
  destruct r as [[]| | |]; try done.
  destruct (dynamic_cast e _) as [m|] eqn:Hcast; [| done].
  destruct (Get (impl m) _ _) as [[] element] eqn:Hget; [| done].
  apply Get_true_inv in Hget.
  assert (element_read i st0 element st1) as Helement
      by (by econstructor).
  run_monad.
  destruct (bool_decide (Peek st1 ≠ ",")) eqn:Hcomma;
    destruct (bool_decide (Peek st1 ≠ "}")) eqn:Hclose;
    cbn [andb]; run_monad; try done.
  - (* a closing brace *)
    apply bool_decide_eq_false, dec_stable in Hclose.
    rewrite bool_decide_false by (rewrite Hclose; done). run_monad.
    destruct fuel as [|fuel]; [done |].
    rewrite read_elements_closed by done.
    intros [= <- <-]. cbn [st this]. split; [done |]. split; [done |].
    exists [], i, st0. split; [constructor |]. right. by exists element.
  - (* a comma *)
    apply bool_decide_eq_false, dec_stable in Hcomma.
    rewrite bool_decide_true by done. run_monad.
    rewrite Next_HasNext
      by (apply Peek_nonempty_HasNext; by rewrite Hcomma).
    intros Hrest. apply IH in Hrest
      as (Hthis & Hend & before & j & st' & Hbefore & Hcases).
    split; [done |]. split; [done |].
    exists (element :: before), j, st'. split; [by econstructor |].
    destruct Hcases as [[-> ->] | (last & Hlast & ->)].
    + left. by rewrite <- app_assoc.
    + right. exists last. by rewrite <- !app_assoc.
  - apply bool_decide_eq_false, dec_stable in Hcomma.
    apply bool_decide_eq_false, dec_stable in Hclose. congruence.
Qed.

(** X18. When [VarMap<vector<T>>::ReadAndSet] returns normally and alias
    resolution did not handle the call, the stream held an opening brace,
    a list of elements and a closing brace, and [varname] is bound to the
    elements of that list, no more and no less, with the stream past the
    closing brace. *)
Theorem VarMapVector_ReadAndSet_sound st0 fr' :
  Environment_Defined env (Peek st0) = false →
  VarMapVector_ReadAndSet Environment_ReadAndSet env varname
                          {| this := this0; st := st0 |}
  = (Ok tt, fr') →
  Peek st0 = "{"
  ∧ ∃ elements st1,
      element_list (advance st0) elements st1
      ∧ fr' = {| this := VarMap_Set this0 varname elements;
                 st := advance st1 |}.
Proof.
  intros Hdef. unfold VarMapVector_ReadAndSet. unfold bind at 1.
  rewrite (alias_not_defined env varname {| this := this0; st := st0 |}
             Hdef).
  cbn [negb].
  unfold bind at 1. unfold st_Peek at 1. cbn [st this].
  unfold bind at 1. destruct (bool_decide (Peek st0 = "{")) eqn:Hopen;
    [| done].
  apply bool_decide_eq_true in Hopen.
  unfold bind at 1. unfold st_Next at 1. cbn [st this].
  rewrite Next_HasNext by (apply Peek_nonempty_HasNext; by rewrite Hopen).
  unfold ret at 1. unfold bind at 1. unfold st_remaining at 1.
  cbn [st this]. unfold bind at 1.
  destruct (read_elements _ _ _ _ _ _ _) as [[elements| | |] fr1] eqn:Hloop;
    try done.
  apply read_elements_Ok in Hloop
    as (Hthis & Hclose & before & j & st' & Hbefore & Hcases).
  unfold bind, st_Next, this_Set.
  rewrite Next_HasNext by (apply Peek_nonempty_HasNext; by rewrite Hclose).
  intros [= <-]. split; [done |]. exists elements, (st fr1).
  rewrite Hthis. split; [| done].
  destruct Hcases as [[-> <-] | (last & Hlast & ->)].
  - by eapply element_list_closed.
  - by eapply element_list_last.
Qed.

End Forward_callee.

End Vector_more.

(** * More of the tables at work *)

Section More_examples.
Import StreamTokenizer.

(** [int y = x;] after [int x = 1;]. *)
Lemma alias_no_error_witness :
  ∃ handled,
    (ReadAndSetFromExistingVariable env_x "y"
       {| this := VarMap_Set int_table "x" 1%Z; st := name_x |}).1
    = Ok handled.
Proof.
  apply (alias_no_error env_x "y"
           {| this := VarMap_Set int_table "x" 1%Z; st := name_x |}).
  reflexivity.
Defined.

(** [int y = s;] where [s] is a string: the initializer is not asked to
    read [s]. *)
Lemma VarMap_ReadAndSet_alias_handled_witness :
  VarMap_ReadAndSet literal_Init env_s "y"
    {| this := int_table; st := name_s |}
  = (Ok tt, {| this := int_table; st := name_s |}).
Proof.
  refine (eq_trans
            (VarMap_ReadAndSet_alias_handled literal_Init env_s "y"
               {| this := int_table; st := name_s |} _ _) _);
    by vm_compute.
Defined.

(** [int x = 1;] *)
Lemma VarMap_ReadAndSet_Init_witness :
  VarMap_ReadAndSet literal_Init primitive_env "x"
    {| this := int_table; st := no_brace |}
  = (Ok tt,
     {| this := VarMap_Set int_table "x" 1%Z; st := advance no_brace |}).
Proof.
  apply (VarMap_ReadAndSet_Init literal_Init primitive_env "x"
           {| this := int_table; st := no_brace |}).
  - reflexivity.
  - by vm_compute.
Defined.

(** [int[] ys = xs;] after [int[] xs = { 1, 2, 3 };]. *)
Lemma VarMapVector_ReadAndSet_alias_handled_witness :
  VarMapVector_ReadAndSet read_element_of_vector env_xs "ys"
    {| this := VarMap_Set int_vector_table "xs" [1; 2; 3]%Z;
       st := name_xs |}
  = (Ok tt,
     {| this := VarMap_Set (VarMap_Set int_vector_table "xs" [1; 2; 3]%Z)
                           "ys" [1; 2; 3]%Z;
        st := advance name_xs |}).
Proof.
  refine (eq_trans
            (VarMapVector_ReadAndSet_alias_handled read_element_of_vector
               env_xs "ys"
               {| this := VarMap_Set int_vector_table "xs" [1; 2; 3]%Z;
                  st := name_xs |} _ _) _);
    by vm_compute.
Defined.


Lemma VarMapVector_ReadAndSet_forward_witness :
  forward no_comma
    (st (VarMapVector_ReadAndSet read_element_of_vector primitive_env "xs"
           {| this := int_vector_table; st := no_comma |}).2).
Proof.
  apply (VarMapVector_ReadAndSet_forward read_element_of_vector
           primitive_env "xs" int_vector_table int_element_forward
           no_comma).
Defined.

(** [int[] xs = { 1, 2, 3 };] *)
Lemma VarMapVector_ReadAndSet_sound_witness :
  Peek three_ints = "{"
  ∧ ∃ elements st1,
      element_list read_element_of_vector primitive_env "xs"
                   int_vector_table (advance three_ints) elements st1
      ∧ {| this := VarMap_Set int_vector_table "xs" [1; 2; 3]%Z;
           st := at_token 7 three_ints |}
        = {| this := VarMap_Set int_vector_table "xs" elements;
             st := advance st1 |}.
Proof.
  apply (VarMapVector_ReadAndSet_sound read_element_of_vector
           primitive_env "xs" int_vector_table int_element_forward
           three_ints).
  - reflexivity.
  - by vm_compute.
Defined.

End More_examples.
